(** * The views plugin: configuration loading (setup.go)

    A shallow embedding of [loadConfig] and of the functions it calls, with
    the properties of the loaded configuration that the specification states.

    The Go code mutates the fields of one shared [*Views]; it logs through a
    package-level logger and reads files and HTTP endpoints.  Here the shared
    structure, the log and the history of stores to the shared structure are
    an explicit state, and the outside world of one refresh cycle is a record
    of functions. *)

From Stdlib Require Import ZArith Ascii String List Lia.
From stdpp Require Import base option list strings gmap fin_maps.

Local Open Scope Z_scope.

(** ** Strings: strings.ToUpper, strings.ToLower, strings.HasPrefix/HasSuffix

    Names, record types and locators are byte strings.  The case mappings are
    the ones Go applies to ASCII letters; a byte outside 'A'..'Z' / 'a'..'z'
    is left as it is. *)

Definition upper_byte (c : ascii) : ascii :=
  let n := N_of_ascii c in
  if ((97 <=? n) && (n <=? 122))%N then ascii_of_N (n - 32) else c.

Definition lower_byte (c : ascii) : ascii :=
  let n := N_of_ascii c in
  if ((65 <=? n) && (n <=? 90))%N then ascii_of_N (n + 32) else c.

Fixpoint map_bytes (f : ascii -> ascii) (s : string) : string :=
  match s with
  | EmptyString => EmptyString
  | String c s' => String (f c) (map_bytes f s')
  end.

Definition ToUpper : string -> string := map_bytes upper_byte.
Definition ToLower : string -> string := map_bytes lower_byte.

Definition HasPrefix (s p : string) : bool := String.prefix p s.

Definition HasSuffix (s p : string) : bool :=
  (String.length p <=? String.length s)%nat
  && String.eqb (String.substring (String.length s - String.length p) (String.length p) s) p.

(** ** Raw documents (setup.go, lines 26-43) *)

Module RawClientACL.
Record t : Type := mk { Name : string; CIDRPrefixes : list string }.
End RawClientACL.

Module RawRecordEntry.
(** The anonymous struct of [RawRecord.Records]. *)
Record t : Type := mk { Name : string; TTL : Z; Type_ : string; Value : string }.
End RawRecordEntry.

Module RawRecord.
Record t : Type := mk { Name : string; Records : list RawRecordEntry.t }.
End RawRecord.

(** ** What setup.go takes from its libraries

    [net.ParseCIDR] (its error mapped to [None]: the code only tests it),
    [IPNet.Contains], [plugin.Host(s).Normalize()], and the two schema
    constants, whose declaration is in another file of the package.  The
    development is parametric in them. *)

Class Lib : Type := {
  IP : Type;
  IPNet : Type;
  ParseCIDR : string -> option IPNet;
  Contains : IPNet -> IP -> bool;
  Normalize : string -> string;
  SchemaYAML : string;
  SchemaHTTP : string
}.

(** Record types of github.com/miekg/dns (uint16). *)
Definition TypeNone : Z := 0.
Definition TypeA : Z := 1.
Definition TypeCNAME : Z := 5.
Definition TypeTXT : Z := 16.
Definition TypeAAAA : Z := 28.

(** ** The published configuration *)

Module ClientACL.
(** Modelled from the spec: the declaration of ClientACL is not in
    setup.go; the fields are the ones its composite literal sets (lines
    196-199), the spec's AddressGroup: a name and its parsed prefixes. *)
Record t `{Lib} : Type := mk { Name : string; CIDRNets : list IPNet }.
End ClientACL.

Module Zone.
(** Modelled from the spec: the declaration of Zone is not in setup.go; the
    fields are the ones its composite literal sets (lines 224-229), the
    spec's RecordEntry. *)
Record t : Type := mk { Name : string; TTL : Z; Type_ : Z; Value : string }.
End Zone.

Module Zones.
(** Modelled from the spec: the declaration of Zones is not in setup.go;
    the fields are the ones its composite literal sets (lines 204-207), the
    spec's RecordSet: the ordered names and the map from name to entry. *)
Record t : Type := mk { Names : list string; Z : gmap string Zone.t }.
End Zones.

Module Views.
(** Modelled from the spec: the declaration of Views is not in setup.go;
    the fields are the ones parse and loadConfig read and write (the next
    handler and the upstream resolver, which loadConfig never touches, are
    left out). *)
Record t `{Lib} : Type := mk {
  ReloadInterval : Z;
  Client : string;
  Record_ : string;
  ClientSchema : string;
  RecordSchema : string;
  ClientACLs : list ClientACL.t;
  ClientZones : gmap string Zones.t
}.

Definition set_ClientACLs `{Lib} (acls : list ClientACL.t) (v : t) : t :=
  mk _ (ReloadInterval v) (Client v) (Record_ v) (ClientSchema v) (RecordSchema v)
     acls (ClientZones v).

Definition set_ClientZones `{Lib} (zs : gmap string Zones.t) (v : t) : t :=
  mk _ (ReloadInterval v) (Client v) (Record_ v) (ClientSchema v) (RecordSchema v)
     (ClientACLs v) zs.
End Views.

(** ** The outside world of one refresh cycle *)

Definition error : Type := string.
Definition bytes : Type := list Byte.byte.

(** A Go result [(x, err)]. *)
Inductive result (A : Type) : Type :=
  | Ok (a : A)
  | Err (e : error).
Arguments Ok {A} a.
Arguments Err {A} e.

(** The target of a decoder: [&rawClients] or [&rawRecords]. *)
Inductive Out : Type -> Type :=
  | OutClients : Out RawClientACL.t
  | OutRecords : Out RawRecord.t.

(** [yaml.Unmarshal] / [json.Unmarshal] into a nil slice: the elements left
    in the slice and the error, if any (a decoder can fail after it has
    filled part of the slice). *)
Record Unmarshal : Type := {
  into_clients : bytes -> list RawClientACL.t * option error;
  into_records : bytes -> list RawRecord.t * option error
}.

Definition unmarshal (u : Unmarshal) {T} (out : Out T) : bytes -> list T * option error :=
  match out in Out T return bytes -> list T * option error with
  | OutClients => into_clients u
  | OutRecords => into_records u
  end.

Record Response : Type := { Body : result bytes }.

Record World : Type := {
  ioutil_ReadFile : string -> result bytes;
  url_Parse : string -> result string;
  http_NewRequest : string -> result string;
  client_Do : string -> result Response;
  yaml_Unmarshal : Unmarshal;
  json_Unmarshal : Unmarshal
}.

(** ** parseFromYAML, parseFromHTTP, schemaCheck (lines 239-297) *)

Definition parseFromYAML (W : World) {T} (filename : string) (out : Out T)
  : list T * option error :=
  match ioutil_ReadFile W filename with
  | Err e => ([], Some e)
  | Ok file => unmarshal (yaml_Unmarshal W) out file
  end.

Definition parseFromHTTP (W : World) {T} (endpoint : string) (out : Out T)
  : list T * option error :=
  match url_Parse W endpoint with
  | Err e => ([], Some e)
  | Ok u =>
    match http_NewRequest W u with
    | Err e => ([], Some e)
    | Ok req =>
      match client_Do W req with
      | Err e => ([], Some e)
      | Ok resp =>
        match Body resp with
        | Err e => ([], Some e)
        | Ok body => unmarshal (json_Unmarshal W) out body
        end
      end
    end
  end.

Definition schemaCheck `{Lib} (str : string) : result string :=
  if HasPrefix str "http://" || HasPrefix str "https://" then Ok SchemaHTTP
  else if HasSuffix str ".yaml" || HasSuffix str ".yml" then Ok SchemaYAML
  else Err ("unknown schema: " +:+ str).

(** ** State of a run: the shared structure, the log, the stores

    [view] is the [*Views] that the refresher and the query handlers share.
    [logged] is what was written to the plugin's logger.  [stores] lists the
    value of the shared structure after each store to one of its fields, in
    program order: these are the values a reader running between two
    statements of the refresher finds there. *)

Inductive LogEntry : Type :=
  | LogError (e : error)
  | LogWarningInvalidCIDR (name cidr : string).

Record State `{Lib} : Type := mkState {
  view : Views.t;
  logged : list LogEntry;
  stores : list Views.t
}.

Definition M `{Lib} (A : Type) : Type := State -> A * State.

#[export] Instance M_ret `{Lib} : MRet M := fun A a s => (a, s).
#[export] Instance M_bind `{Lib} : MBind M :=
  fun A B f m s => let '(a, s') := m s in f a s'.

Section Effects.
Context `{Lib}.

Definition read {A} (field : Views.t -> A) : M A :=
  fun s => (field (view s), s).

(** A store to a field of the shared structure. *)
Definition store (upd : Views.t -> Views.t) : M unit :=
  fun s => let v' := upd (view s) in
           (tt, mkState _ v' (logged s) (stores s ++ [v'])).

Definition log (e : LogEntry) : M unit :=
  fun s => (tt, mkState _ (view s) (logged s ++ [e]) (stores s)).

(** [for _, x := range l { body x }] *)
Fixpoint for_range {A} (l : list A) (body : A -> M unit) : M unit :=
  match l with
  | [] => mret tt
  | x :: l' => body x;; for_range l' body
  end.

(** A range loop that updates a local variable. *)
Fixpoint for_range_acc {A B} (l : list A) (acc : B) (body : B -> A -> M B) : M B :=
  match l with
  | [] => mret acc
  | x :: l' => acc' ← body acc x; for_range_acc l' acc' body
  end.

(** ** loadConfig (lines 154-237) *)

(** The switch on the record type (lines 210-222); [rrtype] starts at 0. *)
Definition rrtype_of (type : string) : Z :=
  let t := ToUpper type in
  if String.eqb t "A" then TypeA
  else if String.eqb t "AAAA" then TypeAAAA
  else if String.eqb t "CNAME" then TypeCNAME
  else if String.eqb t "TXT" then TypeTXT
  else 0.

(** The entry built from one raw record (lines 224-229). *)
Definition zone_of (rawRecord : RawRecordEntry.t) : Zone.t :=
  Zone.mk (Normalize (RawRecordEntry.Name rawRecord))
          (RawRecordEntry.TTL rawRecord)
          (rrtype_of (RawRecordEntry.Type_ rawRecord))
          (Normalize (RawRecordEntry.Value rawRecord)).

(** One turn of the loop over [r.Records] (lines 209-233): [zones] is local
    to the turn of the outer loop and is not yet reachable from [v]. *)
Definition add_record (zones : Zones.t) (rawRecord : RawRecordEntry.t) : Zones.t :=
  let rr := zone_of rawRecord in
  Zones.mk (Zones.Names zones ++ [Zone.Name rr])
           (<[Zone.Name rr := rr]> (Zones.Z zones)).

Definition loadConfig (W : World) : M unit :=
  clientSchema ← read Views.ClientSchema;
  client ← read Views.Client;
  '(rawClients, err) ← mret (
    if String.eqb clientSchema SchemaYAML then parseFromYAML W client OutClients
    else if String.eqb clientSchema SchemaHTTP then parseFromHTTP W client OutClients
    else ([], None));
  match err with Some e => log (LogError e) | None => mret tt end;;
  recordSchema ← read Views.RecordSchema;
  record ← read Views.Record_;
  '(rawRecords, err) ← mret (
    if String.eqb recordSchema SchemaYAML then parseFromYAML W record OutRecords
    else if String.eqb recordSchema SchemaHTTP then parseFromHTTP W record OutRecords
    else ([], err));
  match err with Some e => log (LogError e) | None => mret tt end;;
  store (Views.set_ClientACLs []);;
  for_range rawClients (fun client =>
    cidrNets ← for_range_acc (RawClientACL.CIDRPrefixes client) []
      (fun cidrNets cidr =>
         match ParseCIDR cidr with
         | None =>
           log (LogWarningInvalidCIDR (RawClientACL.Name client) cidr);;
           mret cidrNets
         | Some cidrNet => mret (cidrNets ++ [cidrNet])
         end);
    acls ← read Views.ClientACLs;
    store (Views.set_ClientACLs
             (acls ++ [ClientACL.mk _ (RawClientACL.Name client) cidrNets])));;
  store (Views.set_ClientZones ∅);;
  for_range rawRecords (fun r =>
    let zones := fold_left add_record (RawRecord.Records r) (Zones.mk [] ∅) in
    m ← read Views.ClientZones;
    store (Views.set_ClientZones (<[RawRecord.Name r := zones]> m))).

(** The state a run of [loadConfig] starts from and the one it ends in. *)
Definition start (v : Views.t) : State := mkState _ v [] [].
Definition run (W : World) (v : Views.t) : State := snd (loadConfig W (start v)).
End Effects.

(** ** What a run computes, as functions of the fetched documents *)

Section Loaded.
Context `{Lib}.

(** The documents the two switches leave in [rawClients] and [rawRecords],
    with the value of [err] after each. *)
Definition fetchClients (W : World) (v : Views.t) : list RawClientACL.t * option error :=
  if String.eqb (Views.ClientSchema v) SchemaYAML
  then parseFromYAML W (Views.Client v) OutClients
  else if String.eqb (Views.ClientSchema v) SchemaHTTP
  then parseFromHTTP W (Views.Client v) OutClients
  else ([], None).

Definition fetchRecords (W : World) (v : Views.t) : list RawRecord.t * option error :=
  if String.eqb (Views.RecordSchema v) SchemaYAML
  then parseFromYAML W (Views.Record_ v) OutRecords
  else if String.eqb (Views.RecordSchema v) SchemaHTTP
  then parseFromHTTP W (Views.Record_ v) OutRecords
  else ([], snd (fetchClients W v)).

Definition errors_of (err : option error) : list LogEntry :=
  match err with Some e => [LogError e] | None => [] end.

(** The group built from one raw group: its well-formed prefixes, in order. *)
Definition acl_of (client : RawClientACL.t) : ClientACL.t :=
  ClientACL.mk _ (RawClientACL.Name client) (omap ParseCIDR (RawClientACL.CIDRPrefixes client)).

Definition warnings_for (name : string) (cidrs : list string) : list LogEntry :=
  flat_map (fun cidr => match ParseCIDR cidr with
                        | None => [LogWarningInvalidCIDR name cidr]
                        | Some _ => []
                        end) cidrs.

Definition warnings_of (client : RawClientACL.t) : list LogEntry :=
  warnings_for (RawClientACL.Name client) (RawClientACL.CIDRPrefixes client).

Definition zones_of (r : RawRecord.t) : Zones.t :=
  fold_left add_record (RawRecord.Records r) (Zones.mk [] ∅).

Definition put_zones (m : gmap string Zones.t) (r : RawRecord.t) : gmap string Zones.t :=
  <[RawRecord.Name r := zones_of r]> m.

Definition client_zones (rawRecords : list RawRecord.t) : gmap string Zones.t :=
  fold_left put_zones rawRecords ∅.

(** The shared structure after each turn of the two outer loops. *)
Fixpoint acl_stores (v : Views.t) (rawClients : list RawClientACL.t) : list Views.t :=
  match rawClients with
  | [] => []
  | client :: rest =>
    let v' := Views.set_ClientACLs (Views.ClientACLs v ++ [acl_of client]) v in
    v' :: acl_stores v' rest
  end.

Fixpoint zone_stores (v : Views.t) (rawRecords : list RawRecord.t) : list Views.t :=
  match rawRecords with
  | [] => []
  | r :: rest =>
    let v' := Views.set_ClientZones (put_zones (Views.ClientZones v) r) v in
    v' :: zone_stores v' rest
  end.

Definition loaded (W : World) (v : Views.t) : Views.t :=
  Views.set_ClientZones (client_zones (fst (fetchRecords W v)))
    (Views.set_ClientACLs (map acl_of (fst (fetchClients W v))) v).

Definition loaded_log (W : World) (v : Views.t) : list LogEntry :=
  errors_of (snd (fetchClients W v)) ++ errors_of (snd (fetchRecords W v))
  ++ flat_map warnings_of (fst (fetchClients W v)).

Definition loaded_stores (W : World) (v : Views.t) : list Views.t :=
  let v1 := Views.set_ClientACLs [] v in
  let v2 := Views.set_ClientACLs (map acl_of (fst (fetchClients W v))) v in
  let v3 := Views.set_ClientZones ∅ v2 in
  [v1] ++ acl_stores v1 (fst (fetchClients W v)) ++ [v3]
  ++ zone_stores v3 (fst (fetchRecords W v)).

End Loaded.

(** ** The query path and name normalization, from the specification

    The matcher and the resolver are in a file of the package that setup.go
    does not contain, and [Normalize] is a library function; what follows is
    written from the specification's sections 4.1, 4.2 and 4.4. *)

Section QueryPath.
Context `{Lib}.

(** Modelled from the spec: the membership test of the matcher (not in
    setup.go).  Section 4.1: the client address falls inside any of the
    group's prefixes. *)
Definition group_contains (g : ClientACL.t) (clientAddress : IP) : bool :=
  existsb (fun prefix => Contains prefix clientAddress) (ClientACL.CIDRNets g).

(** Modelled from the spec: the address-group matcher (not in setup.go).
    Section 4.1: iterate the configured groups in their declared order; for
    each group, test whether the client address falls inside any of its
    prefixes; return the name of the first group with a matching prefix;
    none if no group matches. *)
Fixpoint match_ (groups : list ClientACL.t) (clientAddress : IP) : option string :=
  match groups with
  | [] => None
  | g :: rest =>
    if group_contains g clientAddress then Some (ClientACL.Name g)
    else match_ rest clientAddress
  end.

(** Modelled from the spec: the result of the resolver (not in setup.go).
    Sections 4.4 and 9: an answer with the entry's TTL, type and value, or
    the signal that the query is not handled. *)
Inductive Resolution : Type :=
  | Answer (ttl : Z) (type : Z) (value : string)
  | Decline.

(** Modelled from the spec: the query resolver (not in setup.go).  Section
    4.4, steps 2 to 6: decline if no group matches; decline if the matched
    group's name has no record set; decline if the normalized query name
    has no entry; decline if the entry's type is not the query type or is
    UNKNOWN (0, no type); otherwise answer with the entry's TTL, type and
    value. *)
Definition resolve (snapshot : Views.t) (clientAddress : IP)
           (queryName : string) (queryType : Z) : Resolution :=
  match match_ (Views.ClientACLs snapshot) clientAddress with
  | None => Decline
  | Some group =>
    match Views.ClientZones snapshot !! group with
    | None => Decline
    | Some recordSet =>
      match Zones.Z recordSet !! Normalize queryName with
      | None => Decline
      | Some entry =>
        if negb (Zone.Type_ entry =? queryType) || (Zone.Type_ entry =? TypeNone)
        then Decline
        else Answer (Zone.TTL entry) (Zone.Type_ entry) (Zone.Value entry)
      end
    end
  end.
End QueryPath.

(** Modelled from the spec: a name is fully qualified when it ends with
    the separator; [fqdn] adds the separator to a name that is not. *)
Fixpoint is_fqdn (s : string) : bool :=
  match s with
  | EmptyString => false
  | String c EmptyString => Ascii.eqb c "."
  | String _ s' => is_fqdn s'
  end.

Definition fqdn (s : string) : string := if is_fqdn s then s else s +:+ ".".

(** Modelled from the spec: name normalization ([plugin.Host.Normalize] is a
    library function, not in setup.go).  Sections 3 and 4.2: the canonical
    form is lower-cased and fully qualified with the trailing separator. *)
Definition normalize (rawName : string) : string := ToLower (fqdn rawName).

(** ** Maps filled by a loop of assignments [m[key x] = val x] *)

Section FillLoop.
Context {A V : Type} (key : A -> string) (val : A -> V).

Definition fill (m : gmap string V) (l : list A) : gmap string V :=
  fold_left (fun m x => <[key x := val x]> m) l m.

(** [x] is the last element of [l] with its key. *)
Definition last_keyed (l : list A) (x : A) : Prop :=
  exists before after,
    l = before ++ x :: after /\ Forall (fun y => key y <> key x) after.

End FillLoop.

(** ** An IPv4 instance of the library interface

    Used to run the model on concrete documents.  Addresses are 32-bit
    numbers, a prefix is a masked address with its length, and a prefix
    string is four decimal octets, a slash and a length of at most 32; any
    other string is malformed here. *)

Module IPv4.
Record net : Type := mknet { base : Z; ones : Z }.

Definition digit (c : ascii) : option Z :=
  let n := Z.of_N (N_of_ascii c) in
  if (48 <=? n) && (n <=? 57) then Some (n - 48) else None.

Fixpoint decimal_from (acc : Z) (s : string) : option Z :=
  match s with
  | EmptyString => Some acc
  | String c s' => d ← digit c; decimal_from (10 * acc + d) s'
  end.

Definition decimal (s : string) : option Z :=
  match s with EmptyString => None | _ => decimal_from 0 s end.

Fixpoint split (sep : ascii) (s : string) : list string :=
  match s with
  | EmptyString => [EmptyString]
  | String c s' =>
    if Ascii.eqb c sep then EmptyString :: split sep s'
    else match split sep s' with
         | p :: ps => String c p :: ps
         | [] => [String c EmptyString]
         end
  end.

Definition octet (s : string) : option Z :=
  n ← decimal s; if n <=? 255 then Some n else None.

Definition addr (s : string) : option Z :=
  match split "." s with
  | [a; b; c; d] =>
    a ← octet a; b ← octet b; c ← octet c; d ← octet d;
    Some (Z.lor (Z.shiftl a 24) (Z.lor (Z.shiftl b 16) (Z.lor (Z.shiftl c 8) d)))
  | _ => None
  end.

Definition network (a len : Z) : Z := Z.shiftl (Z.shiftr a (32 - len)) (32 - len).

Definition parse_cidr (s : string) : option net :=
  match split "/" s with
  | [a; len] =>
    a ← addr a; len ← decimal len;
    if len <=? 32 then Some (mknet (network a len) len) else None
  | _ => None
  end.

Definition contains (n : net) (ip : Z) : bool :=
  network ip (ones n) =? base n.

Definition ip (a b c d : Z) : Z :=
  Z.lor (Z.shiftl a 24) (Z.lor (Z.shiftl b 16) (Z.lor (Z.shiftl c 8) d)).
End IPv4.

Definition ipv4_lib : Lib := {|
  IP := Z;
  IPNet := IPv4.net;
  ParseCIDR := IPv4.parse_cidr;
  Contains := IPv4.contains;
  Normalize := normalize;
  SchemaYAML := "yaml";
  SchemaHTTP := "http"
|}.

(** ** A concrete deployment

    The scenario of the specification's section 8: two groups and their
    record sets, read from two YAML files. *)

Module Scenario.
Definition clients : list RawClientACL.t :=
  [ RawClientACL.mk "internal" ["10.0.0.0/8"];
    RawClientACL.mk "external" ["0.0.0.0/0"] ].

Definition records : list RawRecord.t :=
  [ RawRecord.mk "internal"
      [RawRecordEntry.mk "host.example.com" 300 "A" "10.1.2.3"];
    RawRecord.mk "external"
      [RawRecordEntry.mk "host.example.com" 300 "A" "203.0.113.9"] ].

Definition clients_file : bytes := [Byte.x63].
Definition records_file : bytes := [Byte.x72].

Definition bytes_eqb (a b : bytes) : bool :=
  bool_decide (map Byte.to_N a = map Byte.to_N b).

(** A decoder that reads the two documents [cs] and [rs] from the two files
    and rejects any other content. *)
Definition decoder (cs : list RawClientACL.t) (rs : list RawRecord.t) : Unmarshal := {|
  into_clients b :=
    if bytes_eqb b clients_file then (cs, None)
    else ([], Some "yaml: unmarshal errors");
  into_records b :=
    if bytes_eqb b records_file then (rs, None)
    else ([], Some "yaml: unmarshal errors")
|}.

(** Both files are there and hold the documents [cs] and [rs]. *)
Definition serve (cs : list RawClientACL.t) (rs : list RawRecord.t) : World := {|
  ioutil_ReadFile f :=
    if String.eqb f "clients.yaml" then Ok clients_file
    else if String.eqb f "records.yaml" then Ok records_file
    else Err "open: no such file or directory";
  url_Parse u := Ok u;
  http_NewRequest u := Ok u;
  client_Do _ := Err "dial tcp: connection refused";
  yaml_Unmarshal := decoder cs rs;
  json_Unmarshal := decoder cs rs
|}.

Definition up : World := serve clients records.

(** No source can be read. *)
Definition down : World := {|
  ioutil_ReadFile _ := Err "open: no such file or directory";
  url_Parse u := Ok u;
  http_NewRequest u := Ok u;
  client_Do _ := Err "dial tcp: connection refused";
  yaml_Unmarshal := decoder clients records;
  json_Unmarshal := decoder clients records
|}.

(** A client document with malformed prefixes: every prefix of "lab" is
    malformed, one prefix of "internal" is. *)
Definition typo_clients : list RawClientACL.t :=
  [ RawClientACL.mk "lab" ["banana"; "10.0.0.0/33"];
    RawClientACL.mk "internal" ["10.0.0.0/8"; "172.16.0.0/12x"; "192.168.0.0/16"];
    RawClientACL.mk "external" ["0.0.0.0/0"] ].

(** The same document without the malformed prefix of "internal". *)
Definition fixed_clients : list RawClientACL.t :=
  [ RawClientACL.mk "lab" ["banana"; "10.0.0.0/33"];
    RawClientACL.mk "internal" ["10.0.0.0/8"; "192.168.0.0/16"];
    RawClientACL.mk "external" ["0.0.0.0/0"] ].

(** A client document with no catch-all group, and a group "guest" for
    which [records] has no record set. *)
Definition guest_clients : list RawClientACL.t :=
  [ RawClientACL.mk "internal" ["10.0.0.0/8"];
    RawClientACL.mk "guest" ["192.168.0.0/16"] ].

(** A record document that declares "host.example.com" twice (in two
    spellings), a TXT record and a record of a type the plugin does not
    know. *)
Definition dup_records : list RawRecord.t :=
  [ RawRecord.mk "internal"
      [ RawRecordEntry.mk "host.example.com" 300 "A" "10.1.2.3";
        RawRecordEntry.mk "note.example.com" 60 "txt" "Hello World";
        RawRecordEntry.mk "mail.example.com" 60 "MX" "mx.example.com";
        RawRecordEntry.mk "Host.Example.Com." 600 "aaaa" "FD00::1" ] ].

(** A record document that declares "www.example.com". *)
Definition www_records : list RawRecord.t :=
  [ RawRecord.mk "internal"
      [RawRecordEntry.mk "www.example.com" 300 "A" "10.1.2.3"] ].

(** The plugin as [parse] leaves it: nothing loaded yet. *)
Definition configured : @Views.t ipv4_lib :=
  Views.mk ipv4_lib 30000000000 "clients.yaml" "records.yaml" "yaml" "yaml" [] ∅.

(** The plugin after a first refresh that found both files. *)
Definition serving : @Views.t ipv4_lib := view (run up configured).

(** The plugin after a first refresh that found [dup_records]. *)
Definition serving_dups : @Views.t ipv4_lib :=
  view (run (serve clients dup_records) configured).

(** The plugin after a first refresh that found [guest_clients]. *)
Definition serving_guests : @Views.t ipv4_lib :=
  view (run (serve guest_clients records) configured).
End Scenario.

(** ** Notions used in the statements *)

(** A refresh cycle fails when one of the two fetches reports an error. *)
Definition refresh_failed `{Lib} (W : World) (v : Views.t) : Prop :=
  is_Some (snd (fetchClients W v)) \/ is_Some (snd (fetchRecords W v)).

(** Every value found in the shared structure during a refresh is the
    configuration from before it or the one from after it. *)
Definition atomic_publication `{Lib} (W : World) (v : Views.t) : Prop :=
  forall s, s ∈ stores (run W v) -> s = v \/ s = view (run W v).

(** Some prefix string of the raw group parses to a prefix that contains
    the address. *)
Definition raw_contains `{Lib} (client : RawClientACL.t) (clientAddress : IP) : bool :=
  existsb (fun cidr => match ParseCIDR cidr with
                       | Some prefix => Contains prefix clientAddress
                       | None => false
                       end) (RawClientACL.CIDRPrefixes client).

(** The four reasons the specification gives for declining a query. *)
Inductive decline_cause `{Lib} (snapshot : Views.t) (clientAddress : IP)
          (queryName : string) (queryType : Z) : Prop :=
  | NoGroup :
      match_ (Views.ClientACLs snapshot) clientAddress = None ->
      decline_cause snapshot clientAddress queryName queryType
  | NoRecordSet group :
      match_ (Views.ClientACLs snapshot) clientAddress = Some group ->
      Views.ClientZones snapshot !! group = None ->
      decline_cause snapshot clientAddress queryName queryType
  | NoEntry group recordSet :
      match_ (Views.ClientACLs snapshot) clientAddress = Some group ->
      Views.ClientZones snapshot !! group = Some recordSet ->
      Zones.Z recordSet !! Normalize queryName = None ->
      decline_cause snapshot clientAddress queryName queryType
  | WrongType group recordSet entry :
      match_ (Views.ClientACLs snapshot) clientAddress = Some group ->
      Views.ClientZones snapshot !! group = Some recordSet ->
      Zones.Z recordSet !! Normalize queryName = Some entry ->
      Zone.Type_ entry <> queryType \/ Zone.Type_ entry = TypeNone ->
      decline_cause snapshot clientAddress queryName queryType.

(** The key under which a raw record is stored (line 225). *)
Definition norm_name `{Lib} (rawRecord : RawRecordEntry.t) : string :=
  Normalize (RawRecordEntry.Name rawRecord).

(** ** parse (lines 77-134)

    [parse] reads the controller through [c.Next], [c.NextBlock], [c.Val]
    and [c.RemainingArgs] only, and every turn of the inner loop that does
    not return calls [c.RemainingArgs] exactly once: what the dispenser
    yields does not depend on what [parse] does with it.  The input is
    therefore the sequence of turns: for each turn of [for c.Next()], the
    entries that [for c.NextBlock()] visits, each with the token that
    [c.Val()] returns and the arguments that [c.RemainingArgs()] returns.
    [time.ParseDuration] is a parameter (a duration is a number of
    nanoseconds). *)

Module Entry.
Record t : Type := mk { Val : string; RemainingArgs : list string }.
End Entry.

(** A call returns or panics (an index out of range, a non-positive ticker
    interval). *)
Inductive outcome (A : Type) : Type :=
  | Returned (a : A)
  | Panicked.
Arguments Returned {A} a.
Arguments Panicked {A}.

(** [30 * time.Second] *)
Definition defaultReloadInterval : Z := 30 * 1000000000.

Module ParseVars.
(** The local variables of [parse], with [v.ReloadInterval]. *)
Record t : Type := mk {
  client : string;
  clientSchema : string;
  record : string;
  recordSchema : string;
  err : option error;
  ReloadInterval : Z
}.
End ParseVars.

(** What a turn of a loop of [parse] does next. *)
Inductive flow `{Lib} : Type :=
  | Continue (vars : ParseVars.t)
  | Return_ (r : result Views.t)
  | Panic.

Section Parse.
Context `{Lib}.
Variable ParseDuration : string -> result Z.

(** The switch on [c.Val()] (lines 93-114). *)
Definition parse_entry (vars : ParseVars.t) (e : Entry.t) : flow :=
  if String.eqb (Entry.Val e) "client" then
    match Entry.RemainingArgs e with
    | [] => Panic
    | client :: _ =>
      match schemaCheck client with
      | Err err => Return_ (Err err)
      | Ok clientSchema =>
        Continue (ParseVars.mk client clientSchema
                    (ParseVars.record vars) (ParseVars.recordSchema vars)
                    None (ParseVars.ReloadInterval vars))
      end
    end
  else if String.eqb (Entry.Val e) "record" then
    match Entry.RemainingArgs e with
    | [] => Panic
    | record :: _ =>
      match schemaCheck record with
      | Err err => Return_ (Err err)
      | Ok recordSchema =>
        Continue (ParseVars.mk (ParseVars.client vars) (ParseVars.clientSchema vars)
                    record recordSchema
                    None (ParseVars.ReloadInterval vars))
      end
    end
  else if String.eqb (Entry.Val e) "reload" then
    match Entry.RemainingArgs e with
    | [] => Panic
    | arg :: _ =>
      match ParseDuration arg with
      | Err err => Return_ (Err err)
      | Ok d =>
        Continue (ParseVars.mk (ParseVars.client vars) (ParseVars.clientSchema vars)
                    (ParseVars.record vars) (ParseVars.recordSchema vars)
                    (ParseVars.err vars) d)
      end
    end
  else Return_ (Err ("unknown argument: " +:+ Entry.Val e)).

(** [for c.NextBlock() { ... }] *)
Fixpoint parse_block (block : list Entry.t) (vars : ParseVars.t) : flow :=
  match block with
  | [] => Continue vars
  | e :: rest =>
    match parse_entry vars e with
    | Continue vars' => parse_block rest vars'
    | stop => stop
    end
  end.

(** [for c.Next() { ... }] *)
Fixpoint parse_blocks (blocks : list (list Entry.t)) (vars : ParseVars.t) : flow :=
  match blocks with
  | [] => Continue vars
  | block :: rest =>
    match parse_block block vars with
    | Continue vars' => parse_blocks rest vars'
    | stop => stop
    end
  end.

Definition parse (blocks : list (list Entry.t)) : outcome (result Views.t) :=
  match parse_blocks blocks
          (ParseVars.mk "" "" "" "" None defaultReloadInterval) with
  | Panic => Panicked
  | Return_ r => Returned r
  | Continue vars =>
    match ParseVars.err vars with
    | Some err => Returned (Err err)
    | None =>
      if String.eqb (ParseVars.client vars) ""
      then Returned (Err "required argument is missing: 'client'")
      else if String.eqb (ParseVars.record vars) ""
      then Returned (Err "required argument is missing: 'record'")
      else Returned (Ok (Views.mk _ (ParseVars.ReloadInterval vars)
                           (ParseVars.client vars) (ParseVars.record vars)
                           (ParseVars.clientSchema vars) (ParseVars.recordSchema vars)
                           [] ∅))
    end
  end.
End Parse.

(** ** reload (lines 136-152)

    The goroutine creates a ticker, which panics when the interval is not
    positive, and then serves what its [select] picks, one pick per turn:
    the reload channel (closed at shutdown), on which it returns, or a tick,
    on which it runs [loadConfig] in the world of that moment.  The result
    tells whether the goroutine has returned. *)

Inductive Pick : Type :=
  | PickReloadChan
  | PickTick (W : World).

Section Reload.
Context `{Lib}.

Fixpoint reload_loop (picks : list Pick) : M bool :=
  match picks with
  | [] => mret false
  | PickReloadChan :: _ => mret true
  | PickTick W :: rest => loadConfig W;; reload_loop rest
  end.

Definition reload (picks : list Pick) (s : State) : outcome (bool * State) :=
  if Views.ReloadInterval (view s) <=? 0 then Panicked
  else Returned (reload_loop picks s).

(** The world of the last tick served before the goroutine returns. *)
Fixpoint last_tick (picks : list Pick) (seen : option World) : option World :=
  match picks with
  | [] => seen
  | PickReloadChan :: _ => seen
  | PickTick W :: rest => last_tick rest (Some W)
  end.
End Reload.

(** ** Notions used in the statements on parse *)

Section ParseNotions.
Context `{Lib}.
Variable ParseDuration : string -> result Z.

(** The first arguments of the entries named [name], in order. *)
Definition args_of (name : string) (entries : list Entry.t) : list string :=
  omap (fun e => if String.eqb (Entry.Val e) name
                 then head (Entry.RemainingArgs e) else None) entries.

(** An entry that [parse] accepts: a known directive with an argument that
    passes its check. *)
Definition entry_ok (e : Entry.t) : Prop :=
  exists arg more,
    Entry.RemainingArgs e = arg :: more
    /\ ((Entry.Val e = "client" /\ exists s, schemaCheck arg = Ok s)
        \/ (Entry.Val e = "record" /\ exists s, schemaCheck arg = Ok s)
        \/ (Entry.Val e = "reload" /\ exists d, ParseDuration arg = Ok d)).
End ParseNotions.

(** ** Configuration blocks for running parse

    [duration] gives the value of [time.ParseDuration] on the strings that
    the examples use. *)

Module Corefile.
Definition duration (s : string) : result Z :=
  if String.eqb s "30s" then Ok 30000000000
  else if String.eqb s "1m" then Ok 60000000000
  else if String.eqb s "0s" then Ok 0
  else Err ("time: invalid duration " +:+ s).

Definition client_line : Entry.t := Entry.mk "client" ["clients.yaml"].
Definition record_line : Entry.t := Entry.mk "record" ["http://config.example/records"].

(** A block with both sources and an interval, and a second block that
    names another client source. *)
Definition full : list (list Entry.t) :=
  [ [ client_line; record_line; Entry.mk "reload" ["1m"] ];
    [ Entry.mk "client" ["https://config.example/clients"] ] ].
End Corefile.

(** A stage of [parseFromHTTP] before the decoding fails with [e] (lines
    254-281). *)
Inductive http_fails (W : World) (endpoint : string) (e : error) : Prop :=
  | FailsParse :
      url_Parse W endpoint = Err e -> http_fails W endpoint e
  | FailsNewRequest u :
      url_Parse W endpoint = Ok u -> http_NewRequest W u = Err e ->
      http_fails W endpoint e
  | FailsDo u req :
      url_Parse W endpoint = Ok u -> http_NewRequest W u = Ok req ->
      client_Do W req = Err e -> http_fails W endpoint e
  | FailsReadAll u req resp :
      url_Parse W endpoint = Ok u -> http_NewRequest W u = Ok req ->
      client_Do W req = Ok resp -> Body resp = Err e ->
      http_fails W endpoint e.

(** ** Sources that fail *)

Module Outages.
(** The client file is read, and its decoding fails after the first
    group. *)
Definition torn : World := {|
  ioutil_ReadFile f :=
    if String.eqb f "clients.yaml" then Ok Scenario.clients_file
    else if String.eqb f "records.yaml" then Ok Scenario.records_file
    else Err "open: no such file or directory";
  url_Parse u := Ok u;
  http_NewRequest u := Ok u;
  client_Do _ := Err "dial tcp: connection refused";
  yaml_Unmarshal := {|
    into_clients _ :=
      ([RawClientACL.mk "internal" ["10.0.0.0/8"]],
       Some "yaml: line 4: cannot unmarshal !!str into []string");
    into_records := into_records (Scenario.decoder Scenario.clients Scenario.records)
  |};
  json_Unmarshal := Scenario.decoder Scenario.clients Scenario.records
|}.

(** The plugin configured with two HTTP locators, nothing loaded yet. *)
Definition over_http : @Views.t ipv4_lib :=
  Views.mk ipv4_lib 30000000000
    "https://config.example/clients" "http://config.example/records"
    "http" "http" [] ∅.
End Outages.

(** The entry with its first argument only. *)
Definition first_arg_only (e : Entry.t) : Entry.t :=
  Entry.mk (Entry.Val e) (take 1 (Entry.RemainingArgs e)).

(** * Properties *)

(** ** Running the monadic program *)

Section Run.
Context `{Lib}.

Lemma run_ret {A} (a : A) (s : State) : (mret a : M A) s = (a, s).
Proof. reflexivity. Qed.

Lemma run_bind {A B} (m : M A) (f : A -> M B) (s : State) :
  (m ≫= f) s = f (fst (m s)) (snd (m s)).
Proof. unfold mbind, M_bind. by destruct (m s). Qed.

Lemma run_read {A} (field : Views.t -> A) (s : State) :
  read field s = (field (view s), s).
Proof. reflexivity. Qed.

Lemma cidr_loop_run name cidrs acc s :
  for_range_acc cidrs acc
    (fun cidrNets cidr =>
       match ParseCIDR cidr with
       | None => log (LogWarningInvalidCIDR name cidr);; mret cidrNets
       | Some cidrNet => mret (cidrNets ++ [cidrNet])
       end) s
  = (acc ++ omap ParseCIDR cidrs,
     mkState _ (view s) (logged s ++ warnings_for name cidrs) (stores s)).
Proof.
  revert acc s. induction cidrs as [|cidr cidrs IH]; intros acc s.
  - destruct s. cbn. by rewrite !app_nil_r.
  - cbn [for_range_acc]. rewrite run_bind. cbv beta.
    cbn [omap list_omap warnings_for flat_map].
    destruct (ParseCIDR cidr) as [n|].
    + rewrite run_ret. cbn [fst snd]. rewrite IH.
      by rewrite <- app_assoc.
    + rewrite run_bind, run_ret. cbn [fst snd]. rewrite IH. cbn.
      by rewrite <- app_assoc.
Qed.
Lemma acl_loop_run rawClients s :
  for_range rawClients (fun client =>
    cidrNets ← for_range_acc (RawClientACL.CIDRPrefixes client) []
      (fun cidrNets cidr =>
         match ParseCIDR cidr with
         | None =>
           log (LogWarningInvalidCIDR (RawClientACL.Name client) cidr);;
           mret cidrNets
         | Some cidrNet => mret (cidrNets ++ [cidrNet])
         end);
    acls ← read Views.ClientACLs;
    store (Views.set_ClientACLs
             (acls ++ [ClientACL.mk _ (RawClientACL.Name client) cidrNets]))) s
  = (tt, mkState _
           (Views.set_ClientACLs
              (Views.ClientACLs (view s) ++ map acl_of rawClients) (view s))
           (logged s ++ flat_map warnings_of rawClients)
           (stores s ++ acl_stores (view s) rawClients)).
Proof.
  revert s. induction rawClients as [|client rest IH]; intros s.
  - destruct s as [[] ? ?]. cbn. by rewrite !app_nil_r.
  - cbn [for_range]. rewrite run_bind, run_bind, cidr_loop_run.
    cbn [fst snd]. rewrite run_bind, run_read. cbn [fst snd view].
    rewrite IH. unfold store. cbn [fst snd view logged stores].
    destruct s as [[] ? ?].
    cbn [view logged stores map flat_map acl_stores Views.ClientACLs Views.set_ClientACLs
         Views.ReloadInterval Views.Client Views.Record_ Views.ClientSchema
         Views.RecordSchema Views.ClientZones].
    unfold warnings_of, acl_of at 1 2. rewrite !app_nil_l, <- !app_assoc. reflexivity.
Qed.

Lemma zone_loop_run rawRecords s :
  for_range rawRecords (fun r =>
    let zones := fold_left add_record (RawRecord.Records r) (Zones.mk [] ∅) in
    m ← read Views.ClientZones;
    store (Views.set_ClientZones (<[RawRecord.Name r := zones]> m))) s
  = (tt, mkState _
           (Views.set_ClientZones
              (fold_left put_zones rawRecords (Views.ClientZones (view s))) (view s))
           (logged s)
           (stores s ++ zone_stores (view s) rawRecords)).
Proof.
  revert s. induction rawRecords as [|r rest IH]; intros s.
  - destruct s as [[] ? ?]. cbn. by rewrite !app_nil_r.
  - cbn [for_range]. rewrite run_bind. cbv zeta. rewrite run_bind, run_read.
    cbn [fst snd]. rewrite IH. unfold store. cbn [fst snd view logged stores].
    destruct s as [[] ? ?].
    cbn [view logged stores fold_left zone_stores Views.ClientACLs Views.set_ClientZones
         Views.ReloadInterval Views.Client Views.Record_ Views.ClientSchema
         Views.RecordSchema Views.ClientZones].
    rewrite <- !app_assoc. reflexivity.
Qed.

Lemma log_error_run (err : option error) (s : State) :
  match err with Some e => log (LogError e) | None => mret tt end s
  = (tt, mkState _ (view s) (logged s ++ errors_of err) (stores s)).
Proof. destruct s, err; cbn; by rewrite ?app_nil_r. Qed.

(** A run of [loadConfig] ends in the state described by [loaded],
    [loaded_log] and [loaded_stores]. *)
Lemma run_loaded (W : World) (v : Views.t) :
  run W v = mkState _ (loaded W v) (loaded_log W v) (loaded_stores W v).
Proof.
  unfold run, loadConfig, start.
  rewrite !run_bind, !run_read. cbn [fst snd view].
  fold (fetchClients W v).
  assert (ER : (if String.eqb (Views.RecordSchema v) SchemaYAML
                then parseFromYAML W (Views.Record_ v) OutRecords
                else if String.eqb (Views.RecordSchema v) SchemaHTTP
                     then parseFromHTTP W (Views.Record_ v) OutRecords
                     else ([], snd (fetchClients W v))) = fetchRecords W v)
    by reflexivity.
  unfold loaded, loaded_log, loaded_stores.
  destruct (fetchClients W v) as [rawClients err].
  rewrite !run_ret. cbn [fst snd]. cbn [fst snd] in ER.
  rewrite run_bind, log_error_run. cbn [fst snd].
  rewrite !run_bind, !run_read. cbn [fst snd view]. rewrite ER.
  destruct (fetchRecords W v) as [rawRecords err'].
  rewrite !run_ret. cbn [fst snd].
  rewrite run_bind, log_error_run. cbn [fst snd view logged stores].
  rewrite run_bind. unfold store at 1 2. cbn [fst snd view logged stores].
  rewrite run_bind, acl_loop_run. cbn [fst snd view logged stores].
  rewrite run_bind. unfold store at 1 2. cbn [fst snd view logged stores].
  rewrite zone_loop_run. cbn [fst snd view logged stores].
  destruct v. cbn. rewrite <- !app_assoc. reflexivity.
Qed.
End Run.

(** ** Facts on map-filling loops *)

Section FillFacts.
Context {A V : Type} (key : A -> string) (val : A -> V).

Lemma fill_snoc m l x : fill key val m (l ++ [x]) = <[key x := val x]> (fill key val m l).
Proof. unfold fill. by rewrite fold_left_app. Qed.

Lemma last_keyed_snoc_eq l x : last_keyed key (l ++ [x]) x.
Proof. exists l, []. split; [done | constructor]. Qed.

Lemma last_keyed_snoc_ne l x y :
  key y <> key x -> last_keyed key l x -> last_keyed key (l ++ [y]) x.
Proof.
  intros Hne (before & after & -> & Hall).
  exists before, (after ++ [y]). split.
  - by rewrite <- app_assoc.
  - apply Forall_app. split; [done | by constructor].
Qed.

Lemma last_keyed_snoc_inv l x y :
  last_keyed key (l ++ [y]) x -> (x = y) \/ (key y <> key x /\ last_keyed key l x).
Proof.
  intros (before & after & Heq & Hall).
  destruct (decide (after = [])) as [-> | Hne].
  - apply app_inj_tail in Heq as [_ ->]. by left.
  - destruct (exists_last Hne) as (after' & z & ->).
    rewrite app_comm_cons, app_assoc in Heq.
    apply app_inj_tail in Heq as [-> ->].
    apply Forall_app in Hall as [Hall Hz].
    right. split; [by inversion Hz | by exists before, after'].
Qed.

Lemma last_keyed_unique l x y :
  last_keyed key l x -> last_keyed key l y -> key x = key y -> x = y.
Proof.
  revert x y. induction l as [|z l IH] using rev_ind; intros x y Hx Hy Hk.
  - destruct Hx as (b & a & Heq & _). by destruct b.
  - apply last_keyed_snoc_inv in Hx as [-> | [Hx1 Hx2]];
      apply last_keyed_snoc_inv in Hy as [-> | [Hy1 Hy2]];
      try done; try congruence.
    by apply IH.
Qed.

Lemma fill_lookup_last m l x :
  last_keyed key l x -> fill key val m l !! key x = Some (val x).
Proof.
  induction l as [|z l IH] using rev_ind; intros Hx.
  - destruct Hx as (b & a & Heq & _). by destruct b.
  - rewrite fill_snoc.
    apply last_keyed_snoc_inv in Hx as [-> | [Hne Hx]].
    + apply lookup_insert_eq.
    + rewrite lookup_insert_ne by done. by apply IH.
Qed.

Lemma fill_lookup_none m l k :
  Forall (fun y => key y <> k) l -> fill key val m l !! k = m !! k.
Proof.
  induction l as [|z l IH] using rev_ind; intros Hall; [done|].
  apply Forall_app in Hall as [Hall Hz]. inversion_clear Hz.
  rewrite fill_snoc, lookup_insert_ne by done. by apply IH.
Qed.

Lemma fill_lookup_inv m l k v :
  fill key val m l !! k = Some v ->
  (exists x, last_keyed key l x /\ key x = k /\ v = val x)
  \/ (Forall (fun y => key y <> k) l /\ m !! k = Some v).
Proof.
  induction l as [|z l IH] using rev_ind; intros Hk.
  - right. by split.
  - rewrite fill_snoc in Hk.
    destruct (decide (key z = k)) as [<- | Hne].
    + rewrite lookup_insert_eq in Hk. injection Hk as <-.
      left. exists z. split; [apply last_keyed_snoc_eq | done].
    + rewrite lookup_insert_ne in Hk by done.
      destruct (IH Hk) as [(x & Hx & <- & ->) | [Hall Hm]].
      * left. exists x. split; [by apply last_keyed_snoc_ne | done].
      * right. split; [|done]. apply Forall_app. split; [done | by constructor].
Qed.

Lemma last_keyed_in l x : last_keyed key l x -> In x l.
Proof. intros (b & a & -> & _). apply in_elt. Qed.

(** Every key that occurs has a last occurrence. *)
Lemma last_keyed_exists l x :
  In x l -> exists y, last_keyed key l y /\ key y = key x.
Proof.
  induction l as [|z l IH] using rev_ind; intros Hin; [done|].
  destruct (decide (key z = key x)) as [Heq | Hne].
  - exists z. split; [apply last_keyed_snoc_eq | done].
  - apply in_app_or in Hin as [Hin | [-> | []]]; [|done].
    destruct (IH Hin) as (y & Hy & Hk). exists y. split; [|done].
    apply last_keyed_snoc_ne; [congruence | done].
Qed.
End FillFacts.

(** ** The stores of a run *)

Section Stores.
Context `{Lib}.

Lemma set_ClientACLs_twice l l' (v : Views.t) :
  Views.set_ClientACLs l (Views.set_ClientACLs l' v) = Views.set_ClientACLs l v.
Proof. by destruct v. Qed.

Lemma set_ClientZones_twice m m' (v : Views.t) :
  Views.set_ClientZones m (Views.set_ClientZones m' v) = Views.set_ClientZones m v.
Proof. by destruct v. Qed.

Lemma acl_stores_elem (v : Views.t) rawClients s :
  s ∈ acl_stores v rawClients ->
  exists k, (1 <= k <= length rawClients)%nat
    /\ s = Views.set_ClientACLs
             (Views.ClientACLs v ++ map acl_of (take k rawClients)) v.
Proof.
  revert v. induction rawClients as [|client rest IH]; intros v Hs.
  - by apply elem_of_nil in Hs.
  - cbn [acl_stores] in Hs. apply elem_of_cons in Hs as [-> | Hs].
    + exists 1%nat. cbn. split; [lia | done].
    + destruct (IH _ Hs) as (k & Hk & ->). exists (S k). split; [cbn; lia|].
      rewrite set_ClientACLs_twice. cbn. by rewrite <- app_assoc.
Qed.

Lemma zone_stores_elem (v : Views.t) rawRecords s :
  s ∈ zone_stores v rawRecords ->
  exists k, (1 <= k <= length rawRecords)%nat
    /\ s = Views.set_ClientZones
             (fold_left put_zones (take k rawRecords) (Views.ClientZones v)) v.
Proof.
  revert v. induction rawRecords as [|r rest IH]; intros v Hs.
  - by apply elem_of_nil in Hs.
  - cbn [zone_stores] in Hs. apply elem_of_cons in Hs as [-> | Hs].
    + exists 1%nat. cbn. split; [lia | done].
    + destruct (IH _ Hs) as (k & Hk & ->). exists (S k). split; [cbn; lia|].
      rewrite set_ClientZones_twice. by cbn.
Qed.

Lemma acl_stores_last (v : Views.t) rawClients :
  last (v :: acl_stores v rawClients)
  = Some (Views.set_ClientACLs (Views.ClientACLs v ++ map acl_of rawClients) v).
Proof.
  revert v. induction rawClients as [|client rest IH]; intros v.
  - destruct v. cbn. by rewrite app_nil_r.
  - cbn [acl_stores]. rewrite last_cons_cons, IH, set_ClientACLs_twice.
    cbn. by rewrite <- app_assoc.
Qed.

Lemma zone_stores_last (v : Views.t) rawRecords :
  last (v :: zone_stores v rawRecords)
  = Some (Views.set_ClientZones
            (fold_left put_zones rawRecords (Views.ClientZones v)) v).
Proof.
  revert v. induction rawRecords as [|r rest IH]; intros v.
  - by destruct v.
  - cbn [zone_stores]. by rewrite last_cons_cons, IH, set_ClientZones_twice.
Qed.
End Stores.

(** ** C1: a failed refresh *)

Section FailedRefresh.
Context `{Lib}.

Lemma fetchClients_prior W (v : Views.t) acls zs :
  fetchClients W (Views.set_ClientZones zs (Views.set_ClientACLs acls v))
  = fetchClients W v.
Proof. by destruct v. Qed.

Lemma fetchRecords_prior W (v : Views.t) acls zs :
  fetchRecords W (Views.set_ClientZones zs (Views.set_ClientACLs acls v))
  = fetchRecords W v.
Proof. by destruct v. Qed.

Lemma loaded_prior W (v : Views.t) acls zs :
  loaded W (Views.set_ClientZones zs (Views.set_ClientACLs acls v)) = loaded W v.
Proof.
  unfold loaded. rewrite fetchClients_prior, fetchRecords_prior. by destruct v.
Qed.

Lemma errors_logged W (v : Views.t) e :
  snd (fetchClients W v) = Some e \/ snd (fetchRecords W v) = Some e ->
  LogError e ∈ logged (run W v).
Proof.
  rewrite run_loaded. cbn [logged]. unfold loaded_log.
  intros [-> | ->]; cbn [errors_of]; rewrite !elem_of_app, !list_elem_of_singleton; auto.
Qed.

(** C1 (as amended): when a refresh cycle fails, [loadConfig] logs the error
    and still rebuilds both fields from what the fetches left in the raw
    lists.  The configuration after the run is the one built from those lists
    (empty where a fetch decoded nothing), whatever configuration was
    published before. *)
Theorem C1_failed_refresh_rebuilds W (v : Views.t) :
  refresh_failed W v ->
  (exists e, (snd (fetchClients W v) = Some e \/ snd (fetchRecords W v) = Some e)
             /\ LogError e ∈ logged (run W v))
  /\ Views.ClientACLs (view (run W v)) = map acl_of (fst (fetchClients W v))
  /\ Views.ClientZones (view (run W v)) = client_zones (fst (fetchRecords W v))
  /\ (fst (fetchClients W v) = [] -> Views.ClientACLs (view (run W v)) = [])
  /\ (fst (fetchRecords W v) = [] -> Views.ClientZones (view (run W v)) = ∅)
  /\ (forall acls zs,
        view (run W (Views.set_ClientZones zs (Views.set_ClientACLs acls v)))
        = view (run W v)).
Proof.
  intros F. repeat split.
  - destruct F as [[e E] | [e E]]; exists e; (split; [auto | apply errors_logged; auto]).
  - by rewrite run_loaded.
  - by rewrite run_loaded.
  - intros E. rewrite run_loaded. cbn. by rewrite E.
  - intros E. rewrite run_loaded. cbn. by rewrite E.
  - intros acls zs. rewrite !run_loaded. cbn [view]. apply loaded_prior.
Qed.
End FailedRefresh.

(** C1 (as stated) fails: with the two-group configuration published and
    both sources unreadable, the run empties both fields. *)
Lemma C1_failed_refresh_blanks :
  refresh_failed Scenario.down Scenario.serving
  /\ length (Views.ClientACLs Scenario.serving) = 2%nat
  /\ Views.ClientACLs (view (run Scenario.down Scenario.serving)) = []
  /\ Views.ClientZones (view (run Scenario.down Scenario.serving)) = ∅
  /\ view (run Scenario.down Scenario.serving) <> Scenario.serving.
Proof.
  split; [left; by eexists|].
  split; [reflexivity|].
  split; [reflexivity|].
  split; [reflexivity|].
  intros E. apply (f_equal Views.ClientACLs) in E. vm_compute in E. discriminate.
Qed.

Lemma C1_failed_refresh_rebuilds_witness :
  refresh_failed Scenario.down Scenario.serving
  /\ (exists e, LogError e ∈ logged (run Scenario.down Scenario.serving))
  /\ Views.ClientACLs (view (run Scenario.down Scenario.serving)) = []
  /\ Views.ClientZones (view (run Scenario.down Scenario.serving)) = ∅
  /\ view (run Scenario.down
             (Views.set_ClientZones ∅ (Views.set_ClientACLs [] Scenario.serving)))
     = view (run Scenario.down Scenario.serving).
Proof.
  assert (F : refresh_failed Scenario.down Scenario.serving) by (left; by eexists).
  destruct (C1_failed_refresh_rebuilds Scenario.down Scenario.serving F)
    as ((e & _ & L) & _ & _ & A & Z & P).
  split; [exact F|].
  split; [by exists e|].
  split; [apply A; reflexivity|].
  split; [apply Z; reflexivity|].
  apply P.
Defined.

(** ** C2: what a refresh leaves in the shared structure, store by store *)

Section Publication.
Context `{Lib}.

Lemma acl_stores_seq (v : Views.t) rawClients :
  acl_stores v rawClients
  = map (fun k => Views.set_ClientACLs
                    (Views.ClientACLs v ++ map acl_of (take k rawClients)) v)
        (seq 1 (length rawClients)).
Proof.
  revert v. induction rawClients as [|client rest IH]; intros v; [done|].
  cbn [acl_stores length seq map take]. f_equal.
  rewrite IH, <- (seq_shift _ 1), map_map. apply map_ext. intros k.
  rewrite set_ClientACLs_twice. cbn [take map Views.ClientACLs Views.set_ClientACLs].
  by rewrite <- app_assoc.
Qed.

Lemma zone_stores_seq (v : Views.t) rawRecords :
  zone_stores v rawRecords
  = map (fun k => Views.set_ClientZones
                    (fold_left put_zones (take k rawRecords) (Views.ClientZones v)) v)
        (seq 1 (length rawRecords)).
Proof.
  revert v. induction rawRecords as [|r rest IH]; intros v; [done|].
  cbn [zone_stores length seq map take fold_left]. f_equal.
  rewrite IH, <- (seq_shift _ 1), map_map. apply map_ext. intros k.
  by rewrite set_ClientZones_twice.
Qed.

Lemma loaded_stores_seq W (v : Views.t) :
  loaded_stores W v
  = map (fun k => Views.set_ClientACLs
                    (map acl_of (take k (fst (fetchClients W v)))) v)
        (seq 0 (S (length (fst (fetchClients W v)))))
    ++ map (fun k => Views.set_ClientZones
                       (client_zones (take k (fst (fetchRecords W v))))
                       (Views.set_ClientACLs (map acl_of (fst (fetchClients W v))) v))
           (seq 0 (S (length (fst (fetchRecords W v))))).
Proof.
  unfold loaded_stores. cbv zeta.
  rewrite acl_stores_seq, zone_stores_seq.
  cbn [seq map take app]. reflexivity.
Qed.

(** C2 (as amended): [loadConfig] publishes in place, one store at a time.
    The values it leaves in the shared structure are, in order, exactly:
    the previous structure with [ClientACLs] emptied, then, one store per
    fetched group, the previous structure with [ClientACLs] holding the
    first k new groups (the previous [ClientZones] still in place); then the
    structure with all new groups and [ClientZones] emptied, then, one store
    per fetched record set, that structure with [ClientZones] holding the
    map of the first k new record sets.  So a refresh makes two stores more
    than it has groups and record sets, the first one leaves no group, the
    one after the last group leaves no record set, and the last one leaves
    the complete new configuration. *)
Theorem C2_stores_stepwise W (v : Views.t) :
  stores (run W v)
  = map (fun k => Views.set_ClientACLs
                    (map acl_of (take k (fst (fetchClients W v)))) v)
        (seq 0 (S (length (fst (fetchClients W v)))))
    ++ map (fun k => Views.set_ClientZones
                       (client_zones (take k (fst (fetchRecords W v))))
                       (Views.set_ClientACLs (map acl_of (fst (fetchClients W v))) v))
           (seq 0 (S (length (fst (fetchRecords W v)))))
  /\ length (stores (run W v))
     = (length (fst (fetchClients W v)) + length (fst (fetchRecords W v)) + 2)%nat
  /\ stores (run W v) !! 0%nat = Some (Views.set_ClientACLs [] v)
  /\ stores (run W v) !! S (length (fst (fetchClients W v)))
     = Some (Views.set_ClientZones ∅
               (Views.set_ClientACLs (map acl_of (fst (fetchClients W v))) v))
  /\ last (stores (run W v)) = Some (view (run W v))
  /\ (forall s, s ∈ stores (run W v) ->
        (exists k, (k <= length (fst (fetchClients W v)))%nat
           /\ s = Views.set_ClientACLs
                    (map acl_of (take k (fst (fetchClients W v)))) v)
        \/ (exists k, (k <= length (fst (fetchRecords W v)))%nat
           /\ s = Views.set_ClientZones
                    (client_zones (take k (fst (fetchRecords W v))))
                    (Views.set_ClientACLs (map acl_of (fst (fetchClients W v))) v))).
Proof.
  rewrite run_loaded. cbn [stores view].
  split; [apply loaded_stores_seq|].
  split.
  { rewrite loaded_stores_seq, length_app, !length_map, !length_seq. lia. }
  split; [done|].
  split.
  { rewrite loaded_stores_seq.
    rewrite lookup_app_r by (rewrite length_map, length_seq; lia).
    rewrite length_map, length_seq, Nat.sub_diag. done. }
  unfold loaded_stores, loaded.
  set (rawClients := fst (fetchClients W v)).
  set (rawRecords := fst (fetchRecords W v)).
  split.
  - cbv zeta. cbn [app].
    rewrite app_comm_cons, last_app, zone_stores_last, set_ClientZones_twice. by destruct v.
  - intros s Hs. cbv zeta in Hs.
    rewrite !elem_of_app, !list_elem_of_singleton in Hs.
    destruct Hs as [-> | [Hs | [-> | Hs]]].
    + left. exists 0%nat. split; [lia | done].
    + apply acl_stores_elem in Hs as (k & Hk & ->).
      left. exists k. split; [lia|]. by rewrite set_ClientACLs_twice.
    + right. exists 0%nat. split; [lia | done].
    + apply zone_stores_elem in Hs as (k & Hk & ->).
      right. exists k. split; [lia|]. by rewrite set_ClientZones_twice.
Qed.
End Publication.

(** C2 (as stated) fails: refreshing the two-group configuration from the
    same two files passes through a value with no group at all, which is
    neither the configuration before the refresh nor the one after it. *)
Lemma C2_publication_not_atomic :
  Views.set_ClientACLs [] Scenario.serving ∈ stores (run Scenario.up Scenario.serving)
  /\ Views.set_ClientACLs [] Scenario.serving <> Scenario.serving
  /\ Views.set_ClientACLs [] Scenario.serving <> view (run Scenario.up Scenario.serving)
  /\ ~ atomic_publication Scenario.up Scenario.serving.
Proof.
  assert (In_ : Views.set_ClientACLs [] Scenario.serving
                ∈ stores (run Scenario.up Scenario.serving)).
  { rewrite run_loaded. cbn [stores]. unfold loaded_stores. cbv zeta.
    apply elem_of_app. left. by apply list_elem_of_singleton. }
  assert (N1 : Views.set_ClientACLs [] Scenario.serving <> Scenario.serving).
  { intros E. apply (f_equal Views.ClientACLs) in E. vm_compute in E. discriminate. }
  assert (N2 : Views.set_ClientACLs [] Scenario.serving
               <> view (run Scenario.up Scenario.serving)).
  { intros E. apply (f_equal Views.ClientACLs) in E. vm_compute in E. discriminate. }
  repeat split; try done.
  intros A. destruct (A _ In_); done.
Qed.

Lemma C2_stores_stepwise_witness :
  length (stores (run Scenario.up Scenario.serving)) = 6%nat
  /\ stores (run Scenario.up Scenario.serving) !! 0%nat
     = Some (Views.set_ClientACLs [] Scenario.serving)
  /\ stores (run Scenario.up Scenario.serving) !! 3%nat
     = Some (Views.set_ClientZones ∅ (view (run Scenario.up Scenario.serving)))
  /\ last (stores (run Scenario.up Scenario.serving))
     = Some (view (run Scenario.up Scenario.serving)).
Proof.
  destruct (C2_stores_stepwise Scenario.up Scenario.serving)
    as (_ & Count & First & Middle & Last & _).
  split; [exact Count|].
  split; [exact First|].
  split; [exact Middle|].
  exact Last.
Defined.

(** ** C3: the matcher on a loaded configuration *)

Section Matcher.
Context `{Lib}.

Lemma loaded_ClientACLs W (v : Views.t) :
  Views.ClientACLs (view (run W v)) = map acl_of (fst (fetchClients W v)).
Proof. by rewrite run_loaded. Qed.

Lemma existsb_omap (cidrs : list string) (x : IP) :
  existsb (fun prefix => Contains prefix x) (omap ParseCIDR cidrs)
  = existsb (fun cidr => match ParseCIDR cidr with
                         | Some prefix => Contains prefix x
                         | None => false
                         end) cidrs.
Proof.
  induction cidrs as [|cidr cidrs IH]; [done|].
  cbn. destruct (ParseCIDR cidr); cbn; by rewrite IH.
Qed.

Lemma group_contains_acl_of client (x : IP) :
  group_contains (acl_of client) x = raw_contains client x.
Proof. apply existsb_omap. Qed.

Lemma match_skip rawClients rest (x : IP) :
  Forall (fun g => raw_contains g x = false) rawClients ->
  match_ (map acl_of rawClients ++ rest) x = match_ rest x.
Proof.
  induction 1 as [|g gs Hg _ IH]; [done|].
  cbn [map app match_]. by rewrite group_contains_acl_of, Hg.
Qed.

Lemma all_malformed_empty client :
  Forall (fun cidr => ParseCIDR cidr = None) (RawClientACL.CIDRPrefixes client) ->
  ClientACL.CIDRNets (acl_of client) = [].
Proof.
  cbn. induction 1 as [|cidr cidrs E _ IH]; [done|]. cbn. by rewrite E.
Qed.

(** C3: on the configuration a run publishes, the matcher returns the name
    of the first raw group, in declared order, one of whose prefix strings
    parses to a prefix containing the address; a group whose prefix strings
    are all malformed is loaded with no prefix and contains no address, so
    it is skipped like any group that does not contain the address; when no
    group contains the address the result is none. *)
Theorem C3_match_first_group W (v : Views.t) (x : IP) :
  (forall before g after,
      fst (fetchClients W v) = before ++ g :: after ->
      Forall (fun g' => raw_contains g' x = false) before ->
      raw_contains g x = true ->
      match_ (Views.ClientACLs (view (run W v))) x = Some (RawClientACL.Name g))
  /\ (Forall (fun g => raw_contains g x = false) (fst (fetchClients W v)) ->
      match_ (Views.ClientACLs (view (run W v))) x = None)
  /\ (forall g,
      Forall (fun cidr => ParseCIDR cidr = None) (RawClientACL.CIDRPrefixes g) ->
      ClientACL.CIDRNets (acl_of g) = [] /\ raw_contains g x = false).
Proof.
  rewrite loaded_ClientACLs. repeat split.
  - intros before g after -> Hbefore Hg.
    rewrite map_app, match_skip by done.
    cbn [map match_]. by rewrite group_contains_acl_of, Hg.
  - intros Hall.
    rewrite <- (app_nil_r (map acl_of _)). by rewrite match_skip.
  - by apply all_malformed_empty.
  - rewrite <- group_contains_acl_of. unfold group_contains.
    by rewrite all_malformed_empty.
Qed.
End Matcher.

Lemma C3_match_first_group_witness :
  match_ (Views.ClientACLs (view (run Scenario.up Scenario.configured)))
         (IPv4.ip 10 5 5 5) = Some "internal"
  /\ match_ (Views.ClientACLs
               (view (run (Scenario.serve Scenario.typo_clients Scenario.records)
                          Scenario.configured)))
            (IPv4.ip 192 168 1 1) = Some "internal"
  /\ match_ (Views.ClientACLs (view (run Scenario.down Scenario.configured)))
            (IPv4.ip 10 5 5 5) = None.
Proof.
  destruct (C3_match_first_group Scenario.up Scenario.configured (IPv4.ip 10 5 5 5))
    as (Tie & _ & _).
  destruct (C3_match_first_group (Scenario.serve Scenario.typo_clients Scenario.records)
              Scenario.configured (IPv4.ip 192 168 1 1))
    as (Skip & _ & Malformed).
  destruct (C3_match_first_group Scenario.down Scenario.configured (IPv4.ip 10 5 5 5))
    as (_ & Nothing & _).
  split; [|split].
  - apply (Tie [] (RawClientACL.mk "internal" ["10.0.0.0/8"])
               [RawClientACL.mk "external" ["0.0.0.0/0"]]);
      [reflexivity | constructor | reflexivity].
  - apply (Skip [RawClientACL.mk "lab" ["banana"; "10.0.0.0/33"]]
                (RawClientACL.mk "internal"
                   ["10.0.0.0/8"; "172.16.0.0/12x"; "192.168.0.0/16"])
                [RawClientACL.mk "external" ["0.0.0.0/0"]]);
      [reflexivity | | reflexivity].
    constructor; [|constructor].
    apply Malformed. repeat constructor.
  - apply Nothing. constructor.
Defined.

(** ** C4: the resolver declines *)

Section Resolver.
Context `{Lib}.

Lemma match_none_iff (groups : list ClientACL.t) (x : IP) :
  match_ groups x = None <-> Forall (fun g => group_contains g x = false) groups.
Proof.
  induction groups as [|g gs IH]; cbn [match_].
  - split; [constructor | done].
  - destruct (group_contains g x) eqn:E.
    + split; [done | by inversion 1; congruence].
    + rewrite IH. split; [by constructor | by inversion 1].
Qed.

(** C4: the resolver returns Decline, one value with nothing in it that
    tells the causes apart, when no group matches the address, when the
    matched group's name has no record set, when the normalized query name
    has no entry in that record set, and when the entry's type is not the
    query type or is UNKNOWN; for an address that no configured group
    contains it returns Decline for every query. *)
Theorem C4_resolve_declines (snapshot : Views.t) (x : IP) :
  (forall queryName queryType,
      decline_cause snapshot x queryName queryType ->
      resolve snapshot x queryName queryType = Decline)
  /\ (Forall (fun g => group_contains g x = false) (Views.ClientACLs snapshot) ->
      forall queryName queryType, resolve snapshot x queryName queryType = Decline).
Proof.
  split.
  - intros queryName queryType [Hm | g Hm Hz | g rs Hm Hz He | g rs e Hm Hz He Ht];
      unfold resolve; rewrite Hm; try done; rewrite Hz; try done; rewrite He; try done.
    destruct Ht as [Ht | Ht].
    + apply Z.eqb_neq in Ht. by rewrite Ht.
    + apply Z.eqb_eq in Ht. rewrite Ht. by rewrite orb_true_r.
  - intros Hall queryName queryType. apply match_none_iff in Hall.
    unfold resolve. by rewrite Hall.
Qed.
End Resolver.

Lemma C4_resolve_declines_witness :
  resolve Scenario.serving_guests (IPv4.ip 8 8 8 8) "host.example.com" TypeA = Decline
  /\ resolve Scenario.serving_guests (IPv4.ip 192 168 1 1) "host.example.com" TypeA = Decline
  /\ resolve Scenario.serving_guests (IPv4.ip 10 5 5 5) "nope.example.com" TypeA = Decline
  /\ resolve Scenario.serving_guests (IPv4.ip 10 5 5 5) "host.example.com" TypeAAAA = Decline
  /\ resolve Scenario.serving_guests (IPv4.ip 10 5 5 5) "host.example.com" TypeA
     = Answer 300 TypeA "10.1.2.3.".
Proof.
  destruct (C4_resolve_declines Scenario.serving_guests (IPv4.ip 8 8 8 8)) as [_ Nowhere].
  destruct (C4_resolve_declines Scenario.serving_guests (IPv4.ip 192 168 1 1)) as [Guest _].
  destruct (C4_resolve_declines Scenario.serving_guests (IPv4.ip 10 5 5 5)) as [Internal _].
  split; [|split; [|split; [|split]]].
  - apply Nowhere. repeat constructor.
  - apply Guest. by apply (NoRecordSet _ _ _ _ "guest").
  - apply Internal. eapply (NoEntry _ _ _ _ "internal"); reflexivity.
  - apply Internal.
    eapply (WrongType _ _ _ _ "internal");
      [reflexivity | reflexivity | reflexivity | by left].
  - reflexivity.
Defined.

(** ** Record sets of a loaded configuration *)

Section RecordSets.
Context `{Lib}.

Lemma zones_Names rs zones :
  Zones.Names (fold_left add_record rs zones)
  = Zones.Names zones ++ map norm_name rs.
Proof.
  revert zones. induction rs as [|rr rs IH]; intros zones; cbn [fold_left map].
  - by rewrite app_nil_r.
  - rewrite IH. cbn. by rewrite <- app_assoc.
Qed.

Lemma zones_Z rs zones :
  Zones.Z (fold_left add_record rs zones)
  = fill norm_name zone_of (Zones.Z zones) rs.
Proof.
  revert zones. induction rs as [|rr rs IH]; intros zones; [done|].
  cbn [fold_left]. by rewrite IH.
Qed.

Lemma zones_of_Names r : Zones.Names (zones_of r) = map norm_name (RawRecord.Records r).
Proof. unfold zones_of. by rewrite zones_Names. Qed.

Lemma zones_of_Z r :
  Zones.Z (zones_of r) = fill norm_name zone_of ∅ (RawRecord.Records r).
Proof. unfold zones_of. by rewrite zones_Z. Qed.

Lemma loaded_ClientZones W (v : Views.t) :
  Views.ClientZones (view (run W v))
  = fill RawRecord.Name zones_of ∅ (fst (fetchRecords W v)).
Proof. by rewrite run_loaded. Qed.

(** A record set of the published map is the one built from the last raw
    record set of that name. *)
Lemma loaded_record_set W (v : Views.t) name zs :
  Views.ClientZones (view (run W v)) !! name = Some zs ->
  exists r, last_keyed RawRecord.Name (fst (fetchRecords W v)) r
            /\ RawRecord.Name r = name /\ zs = zones_of r.
Proof.
  rewrite loaded_ClientZones. intros Hz.
  apply fill_lookup_inv in Hz as [(r & Hr & Hn & ->) | [_ Hempty]]; [eauto|].
  by rewrite lookup_empty in Hempty.
Qed.

Lemma zones_of_entry r k e :
  Zones.Z (zones_of r) !! k = Some e ->
  exists rr, last_keyed norm_name (RawRecord.Records r) rr
             /\ norm_name rr = k /\ e = zone_of rr.
Proof.
  rewrite zones_of_Z. intros Hz.
  apply fill_lookup_inv in Hz as [(rr & Hr & Hn & ->) | [_ Hempty]]; [eauto|].
  by rewrite lookup_empty in Hempty.
Qed.

(** Every raw record of a published record set has an entry under its
    normalized name. *)
Lemma stored_entry W (v : Views.t) r rr :
  last_keyed RawRecord.Name (fst (fetchRecords W v)) r ->
  In rr (RawRecord.Records r) ->
  exists zs e,
    Views.ClientZones (view (run W v)) !! RawRecord.Name r = Some zs
    /\ Zones.Z zs !! norm_name rr = Some e
    /\ Zone.Name e = norm_name rr.
Proof.
  intros Hr Hin. exists (zones_of r).
  destruct (last_keyed_exists norm_name _ _ Hin) as (y & Hy & Hk).
  exists (zone_of y). split; [|split].
  - rewrite loaded_ClientZones. by apply fill_lookup_last.
  - rewrite zones_of_Z, <- Hk. by apply fill_lookup_last.
  - done.
Qed.
End RecordSets.

(** ** C5: one entry per name, the last one declared *)

Section LastWriteWins.
Context `{Lib}.

(** C5: the record set published for a raw record set [r] (the last one of
    its name) has one entry for each normalized name that [r] declares and no
    other key, and the entry kept under a name is the one built from the
    last raw record of [r] with that normalized name. *)
Theorem C5_last_write_wins W (v : Views.t) r :
  last_keyed RawRecord.Name (fst (fetchRecords W v)) r ->
  exists zs,
    Views.ClientZones (view (run W v)) !! RawRecord.Name r = Some zs
    /\ (forall rr, In rr (RawRecord.Records r) ->
          exists e, Zones.Z zs !! norm_name rr = Some e /\ Zone.Name e = norm_name rr)
    /\ (forall k e, Zones.Z zs !! k = Some e ->
          exists rr, In rr (RawRecord.Records r) /\ norm_name rr = k)
    /\ (forall before rr after,
          RawRecord.Records r = before ++ rr :: after ->
          Forall (fun later => norm_name later <> norm_name rr) after ->
          Zones.Z zs !! norm_name rr = Some (zone_of rr)).
Proof.
  intros Hr. exists (zones_of r). split.
  { rewrite loaded_ClientZones. by apply fill_lookup_last. }
  repeat split.
  - intros rr Hin.
    destruct (last_keyed_exists norm_name _ _ Hin) as (y & Hy & Hk).
    exists (zone_of y). rewrite zones_of_Z, <- Hk.
    split; [by apply fill_lookup_last | done].
  - intros k e He. apply zones_of_entry in He as (rr & Hrr & Hk & _).
    exists rr. split; [by eapply last_keyed_in | done].
  - intros before rr after Heq Hafter. rewrite zones_of_Z.
    apply fill_lookup_last. by exists before, after.
Qed.
End LastWriteWins.

Lemma C5_last_write_wins_witness :
  exists zs,
    Views.ClientZones Scenario.serving_dups !! "internal" = Some zs
    /\ Zones.Z zs !! "host.example.com."
       = Some (Zone.mk "host.example.com." 600 TypeAAAA "fd00::1.").
Proof.
  destruct (C5_last_write_wins (Scenario.serve Scenario.clients Scenario.dup_records)
              Scenario.configured
              (RawRecord.mk "internal"
                 [ RawRecordEntry.mk "host.example.com" 300 "A" "10.1.2.3";
                   RawRecordEntry.mk "note.example.com" 60 "txt" "Hello World";
                   RawRecordEntry.mk "mail.example.com" 60 "MX" "mx.example.com";
                   RawRecordEntry.mk "Host.Example.Com." 600 "aaaa" "FD00::1" ]))
    as (zs & Hzs & _ & _ & Last).
  { exists [], []. split; [reflexivity | constructor]. }
  exists zs. split; [exact Hzs|].
  apply (Last [ RawRecordEntry.mk "host.example.com" 300 "A" "10.1.2.3";
                RawRecordEntry.mk "note.example.com" 60 "txt" "Hello World";
                RawRecordEntry.mk "mail.example.com" 60 "MX" "mx.example.com" ]
              (RawRecordEntry.mk "Host.Example.Com." 600 "aaaa" "FD00::1") []);
    [reflexivity | constructor].
Defined.

(** ** C10 and C9: the name sequence and the stored values *)

Section FillSize.
Context {A V : Type} (key : A -> string) (val : A -> V).

Lemma fill_lookup_is_Some l k :
  is_Some (fill key val ∅ l !! k) <-> k ∈ map key l.
Proof.
  split.
  - intros [v Hv].
    apply fill_lookup_inv in Hv as [(x & Hx & <- & _) | [_ Hempty]].
    + apply list_elem_of_In, in_map. by eapply last_keyed_in.
    + by rewrite lookup_empty in Hempty.
  - intros Hk. apply list_elem_of_In, in_map_iff in Hk as (x & <- & Hin).
    destruct (last_keyed_exists key _ _ Hin) as (y & Hy & <-).
    exists (val y). by apply fill_lookup_last.
Qed.

Lemma fill_size_le l : (size (fill key val ∅ l) <= length l)%nat.
Proof.
  induction l as [|x l IH] using rev_ind; [cbn; by rewrite map_size_empty|].
  rewrite fill_snoc, map_size_insert, length_app. cbn.
  destruct (fill key val ∅ l !! key x); cbn; lia.
Qed.

Lemma fill_size_NoDup l :
  size (fill key val ∅ l) = length l -> NoDup (map key l).
Proof.
  induction l as [|x l IH] using rev_ind; [constructor|].
  rewrite fill_snoc, map_size_insert, length_app, map_app. cbn.
  pose proof (fill_size_le l) as Hle.
  destruct (fill key val ∅ l !! key x) as [w|] eqn:E; cbn; intros Hsize; [lia|].
  apply NoDup_app. split; [apply IH; lia|]. split; [|apply NoDup_singleton].
  intros k Hk ->%list_elem_of_singleton.
  apply fill_lookup_is_Some in Hk as [w Hw]. congruence.
Qed.
End FillSize.

Section Names.
Context `{Lib}.

(** C10: the record set published for a raw record set [r] lists in
    [Names] the normalized name of every raw record of [r], in input order,
    duplicates included; the map [Z] has at most as many keys, and fewer
    when [r] repeats a normalized name. *)
Theorem C10_names_one_per_record W (v : Views.t) r :
  last_keyed RawRecord.Name (fst (fetchRecords W v)) r ->
  exists zs,
    Views.ClientZones (view (run W v)) !! RawRecord.Name r = Some zs
    /\ Zones.Names zs = map norm_name (RawRecord.Records r)
    /\ length (Zones.Names zs) = length (RawRecord.Records r)
    /\ (size (Zones.Z zs) <= length (Zones.Names zs))%nat
    /\ (~ NoDup (map norm_name (RawRecord.Records r)) ->
        (size (Zones.Z zs) < length (Zones.Names zs))%nat).
Proof.
  intros Hr. exists (zones_of r). split.
  { rewrite loaded_ClientZones. by apply fill_lookup_last. }
  rewrite zones_of_Names, zones_of_Z, length_map.
  pose proof (fill_size_le norm_name zone_of (RawRecord.Records r)) as Hle.
  repeat split; [done|].
  intros Hdup.
  destruct (decide (size (fill norm_name zone_of ∅ (RawRecord.Records r))
                    = length (RawRecord.Records r))) as [Heq | Hne]; [|lia].
  by apply fill_size_NoDup in Heq.
Qed.

(** C9: every entry of the record set published for a raw record set [r]
    comes from a raw record of [r] with that normalized name, the last one,
    and its value is the normalization of that record's raw value, whatever
    type string the record declares (TXT and unknown types included). *)
Theorem C9_value_normalized W (v : Views.t) r :
  last_keyed RawRecord.Name (fst (fetchRecords W v)) r ->
  exists zs,
    Views.ClientZones (view (run W v)) !! RawRecord.Name r = Some zs
    /\ forall k e,
         Zones.Z zs !! k = Some e ->
         exists rr,
           last_keyed norm_name (RawRecord.Records r) rr
           /\ norm_name rr = k
           /\ Zone.Type_ e = rrtype_of (RawRecordEntry.Type_ rr)
           /\ Zone.Value e = Normalize (RawRecordEntry.Value rr).
Proof.
  intros Hr. exists (zones_of r). split.
  { rewrite loaded_ClientZones. by apply fill_lookup_last. }
  intros k e He. apply zones_of_entry in He as (rr & Hrr & Hk & ->).
  by exists rr.
Qed.
End Names.

Lemma C10_names_one_per_record_witness :
  exists zs,
    Views.ClientZones Scenario.serving_dups !! "internal" = Some zs
    /\ Zones.Names zs
       = ["host.example.com."; "note.example.com."; "mail.example.com.";
          "host.example.com."]
    /\ (size (Zones.Z zs) < length (Zones.Names zs))%nat.
Proof.
  destruct (C10_names_one_per_record
              (Scenario.serve Scenario.clients Scenario.dup_records)
              Scenario.configured
              (RawRecord.mk "internal"
                 [ RawRecordEntry.mk "host.example.com" 300 "A" "10.1.2.3";
                   RawRecordEntry.mk "note.example.com" 60 "txt" "Hello World";
                   RawRecordEntry.mk "mail.example.com" 60 "MX" "mx.example.com";
                   RawRecordEntry.mk "Host.Example.Com." 600 "aaaa" "FD00::1" ]))
    as (zs & Hzs & HNames & _ & _ & Hlt).
  { exists [], []. split; [reflexivity | constructor]. }
  exists zs. split; [exact Hzs|]. split; [exact HNames|].
  apply Hlt. intros ND. apply NoDup_ListNoDup in ND.
  inversion ND as [|? ? Hnotin _]. apply Hnotin.
  right; right; left; reflexivity.
Defined.

Lemma C9_value_normalized_witness :
  exists zs e,
    Views.ClientZones Scenario.serving_dups !! "internal" = Some zs
    /\ Zones.Z zs !! "note.example.com." = Some e
    /\ Zone.Type_ e = TypeTXT
    /\ Zone.Value e = "hello world."
    /\ Zone.Value e <> "Hello World".
Proof.
  pose (txt := RawRecordEntry.mk "note.example.com" 60 "txt" "Hello World").
  pose (recs := [ RawRecordEntry.mk "host.example.com" 300 "A" "10.1.2.3";
                  txt;
                  RawRecordEntry.mk "mail.example.com" 60 "MX" "mx.example.com";
                  RawRecordEntry.mk "Host.Example.Com." 600 "aaaa" "FD00::1" ]).
  destruct (C9_value_normalized
              (Scenario.serve Scenario.clients Scenario.dup_records)
              Scenario.configured (RawRecord.mk "internal" recs))
    as (zs & Hzs & Hval).
  { exists [], []. split; [reflexivity | constructor]. }
  assert (Hzs' : Views.ClientZones Scenario.serving_dups !! "internal"
                 = Some (@zones_of ipv4_lib (RawRecord.mk "internal" recs)))
    by reflexivity.
  assert (Hz : zs = @zones_of ipv4_lib (RawRecord.mk "internal" recs))
    by (change (Views.ClientZones Scenario.serving_dups !! "internal" = Some zs) in Hzs;
        congruence).
  subst zs.
  exists (@zones_of ipv4_lib (RawRecord.mk "internal" recs)), (@zone_of ipv4_lib txt).
  split; [exact Hzs'|].
  assert (He : Zones.Z (@zones_of ipv4_lib (RawRecord.mk "internal" recs))
               !! "note.example.com." = Some (@zone_of ipv4_lib txt)) by reflexivity.
  split; [exact He|].
  destruct (Hval _ _ He) as (rr & Hlast & Hname & Htype & Hvalue).
  assert (Htxt : last_keyed (@norm_name ipv4_lib) recs txt).
  { exists [RawRecordEntry.mk "host.example.com" 300 "A" "10.1.2.3"],
           [RawRecordEntry.mk "mail.example.com" 60 "MX" "mx.example.com";
            RawRecordEntry.mk "Host.Example.Com." 600 "aaaa" "FD00::1"].
    split; [reflexivity|]. repeat constructor; discriminate. }
  assert (Hrr : rr = txt) by (eapply last_keyed_unique; eauto).
  subst rr. split; [exact Htype|]. split; [exact Hvalue|].
  rewrite Hvalue. discriminate.
Defined.

(** ** C6: a malformed prefix *)

Section Malformed.
Context `{Lib}.

Lemma omap_ParseCIDR_app (l1 l2 : list string) :
  omap ParseCIDR (l1 ++ l2) = omap ParseCIDR l1 ++ omap ParseCIDR l2.
Proof.
  induction l1 as [|cidr l1 IH]; [done|].
  cbn. destruct (ParseCIDR cidr); cbn; by rewrite IH.
Qed.

Lemma acl_of_drop_malformed name p_before bad p_after :
  ParseCIDR bad = None ->
  acl_of (RawClientACL.mk name (p_before ++ bad :: p_after))
  = acl_of (RawClientACL.mk name (p_before ++ p_after)).
Proof.
  intros Hbad. unfold acl_of. cbn [RawClientACL.Name RawClientACL.CIDRPrefixes].
  rewrite !omap_ParseCIDR_app. cbn. by rewrite Hbad.
Qed.

Lemma loaded_warnings W (v : Views.t) client cidr :
  In client (fst (fetchClients W v)) ->
  In cidr (RawClientACL.CIDRPrefixes client) ->
  ParseCIDR cidr = None ->
  LogWarningInvalidCIDR (RawClientACL.Name client) cidr ∈ logged (run W v).
Proof.
  intros Hclient Hcidr Hbad. rewrite run_loaded. cbn [logged]. unfold loaded_log.
  rewrite !elem_of_app. right. right.
  apply list_elem_of_In, in_flat_map. exists client. split; [done|].
  unfold warnings_of, warnings_for. apply in_flat_map. exists cidr. split; [done|].
  rewrite Hbad. by left.
Qed.

Lemma omap_ParseCIDR_elem (cidrs : list string) cidr prefix :
  In cidr cidrs -> ParseCIDR cidr = Some prefix -> In prefix (omap ParseCIDR cidrs).
Proof.
  induction cidrs as [|c cidrs IH]; [done|].
  intros [-> | Hin] Hp; cbn.
  - rewrite Hp. by left.
  - destruct (ParseCIDR c); [right|]; by apply IH.
Qed.

(** C6: when one prefix string of one raw group is malformed, the run logs
    a warning for it and publishes exactly the groups it would publish from
    the same document without that string: the group that held it is still
    there under its name and position with every well-formed prefix of its
    list, all other groups are the same, and so the matcher answers alike
    for every address. *)
Theorem C6_malformed_prefix_dropped W W' (v : Views.t)
        before name p_before bad p_after after :
  ParseCIDR bad = None ->
  fst (fetchClients W v)
  = before ++ RawClientACL.mk name (p_before ++ bad :: p_after) :: after ->
  fst (fetchClients W' v)
  = before ++ RawClientACL.mk name (p_before ++ p_after) :: after ->
  Views.ClientACLs (view (run W v)) = Views.ClientACLs (view (run W' v))
  /\ (forall x, match_ (Views.ClientACLs (view (run W v))) x
                = match_ (Views.ClientACLs (view (run W' v))) x)
  /\ map ClientACL.Name (Views.ClientACLs (view (run W v)))
     = map RawClientACL.Name (fst (fetchClients W v))
  /\ (exists g, Views.ClientACLs (view (run W v)) !! length before = Some g
                /\ ClientACL.Name g = name
                /\ forall cidr prefix,
                     In cidr (p_before ++ p_after) ->
                     ParseCIDR cidr = Some prefix ->
                     In prefix (ClientACL.CIDRNets g))
  /\ LogWarningInvalidCIDR name bad ∈ logged (run W v).
Proof.
  intros Hbad HW HW'.
  assert (Heq : Views.ClientACLs (view (run W v)) = Views.ClientACLs (view (run W' v))).
  { rewrite !loaded_ClientACLs, HW, HW', !map_app. cbn [map].
    by rewrite (acl_of_drop_malformed _ _ _ _ Hbad). }
  split; [exact Heq|]. split; [intros x; by rewrite Heq|]. split; [|split].
  - rewrite loaded_ClientACLs, map_map. reflexivity.
  - exists (acl_of (RawClientACL.mk name (p_before ++ bad :: p_after))).
    split; [|split; [done|]].
    + rewrite loaded_ClientACLs, HW, map_app. cbn [map].
      rewrite <- (length_map acl_of before). apply list_lookup_middle. done.
    + intros cidr prefix Hin Hp. cbn [acl_of ClientACL.CIDRNets RawClientACL.CIDRPrefixes].
      apply (omap_ParseCIDR_elem _ cidr); [|done].
      apply in_app_or in Hin as [Hin | Hin]; apply in_or_app; [by left|].
      right. by right.
  - apply (loaded_warnings W v (RawClientACL.mk name (p_before ++ bad :: p_after)) bad).
    + rewrite HW. apply in_elt.
    + apply in_elt.
    + done.
Qed.
End Malformed.

Lemma C6_malformed_prefix_dropped_witness :
  Views.ClientACLs
    (view (run (Scenario.serve Scenario.typo_clients Scenario.records) Scenario.configured))
  = Views.ClientACLs
      (view (run (Scenario.serve Scenario.fixed_clients Scenario.records) Scenario.configured))
  /\ match_ (Views.ClientACLs
               (view (run (Scenario.serve Scenario.typo_clients Scenario.records)
                          Scenario.configured)))
            (IPv4.ip 192 168 1 1) = Some "internal"
  /\ map ClientACL.Name
         (Views.ClientACLs
            (view (run (Scenario.serve Scenario.typo_clients Scenario.records)
                       Scenario.configured)))
     = ["lab"; "internal"; "external"]
  /\ LogWarningInvalidCIDR "internal" "172.16.0.0/12x"
     ∈ logged (run (Scenario.serve Scenario.typo_clients Scenario.records)
                   Scenario.configured).
Proof.
  destruct (C6_malformed_prefix_dropped
              (Scenario.serve Scenario.typo_clients Scenario.records)
              (Scenario.serve Scenario.fixed_clients Scenario.records)
              Scenario.configured
              [RawClientACL.mk "lab" ["banana"; "10.0.0.0/33"]]
              "internal" ["10.0.0.0/8"] "172.16.0.0/12x" ["192.168.0.0/16"]
              [RawClientACL.mk "external" ["0.0.0.0/0"]]
              eq_refl eq_refl eq_refl)
    as (Same & Match & Created & _ & Warned).
  split; [exact Same|].
  split; [rewrite Match; reflexivity|].
  split; [exact Created|].
  exact Warned.
Defined.

(** ** C7: normalization *)

Ltac each_byte c := destruct c as [[] [] [] [] [] [] [] []]; reflexivity.

Lemma lower_byte_idemp c : lower_byte (lower_byte c) = lower_byte c.
Proof. each_byte c. Qed.

Lemma upper_byte_idemp c : upper_byte (upper_byte c) = upper_byte c.
Proof. each_byte c. Qed.

Lemma lower_upper_byte c : lower_byte (upper_byte c) = lower_byte c.
Proof. each_byte c. Qed.

Lemma upper_lower_byte c : upper_byte (lower_byte c) = upper_byte c.
Proof. each_byte c. Qed.

Lemma lower_byte_dot c : Ascii.eqb (lower_byte c) "." = Ascii.eqb c ".".
Proof. each_byte c. Qed.

Lemma map_bytes_compose f g s (Hfg : forall c, f (g c) = f c) :
  map_bytes f (map_bytes g s) = map_bytes f s.
Proof. induction s as [|c s IH]; [done|]. cbn. by rewrite Hfg, IH. Qed.

Lemma ToLower_idemp s : ToLower (ToLower s) = ToLower s.
Proof. apply map_bytes_compose, lower_byte_idemp. Qed.

Lemma ToLower_ToUpper s : ToLower (ToUpper s) = ToLower s.
Proof. apply map_bytes_compose, lower_upper_byte. Qed.

Lemma ToUpper_idemp s : ToUpper (ToUpper s) = ToUpper s.
Proof. apply map_bytes_compose, upper_byte_idemp. Qed.

Lemma ToUpper_ToLower s : ToUpper (ToLower s) = ToUpper s.
Proof. apply map_bytes_compose, upper_lower_byte. Qed.

Lemma append_cons c s t : String c s +:+ t = String c (s +:+ t).
Proof. reflexivity. Qed.

Lemma ToLower_app s t : ToLower (s +:+ t) = ToLower s +:+ ToLower t.
Proof.
  unfold ToLower. induction s as [|c s IH]; [done|].
  cbn [map_bytes]. rewrite !append_cons. cbn [map_bytes]. by rewrite IH.
Qed.

Lemma is_fqdn_ToLower s : is_fqdn (ToLower s) = is_fqdn s.
Proof.
  induction s as [|c s IH]; [done|].
  destruct s as [|c' s]; [apply lower_byte_dot | exact IH].
Qed.

Lemma is_fqdn_snoc_dot s : is_fqdn (s +:+ ".") = true.
Proof.
  induction s as [|c s IH]; [done|].
  rewrite append_cons. destruct s as [|c' s]; [done|].
  rewrite append_cons in *. exact IH.
Qed.

Lemma is_fqdn_fqdn s : is_fqdn (fqdn s) = true.
Proof. unfold fqdn. destruct (is_fqdn s) eqn:E; [done | apply is_fqdn_snoc_dot]. Qed.

Lemma fqdn_fixed s : is_fqdn s = true -> fqdn s = s.
Proof. unfold fqdn. by intros ->. Qed.

Lemma normalize_alt s : normalize s = fqdn (ToLower s).
Proof.
  unfold normalize, fqdn. rewrite is_fqdn_ToLower.
  destruct (is_fqdn s); [done | apply ToLower_app].
Qed.

Lemma normalize_idemp n : normalize (normalize n) = normalize n.
Proof.
  unfold normalize at 1.
  rewrite fqdn_fixed.
  - unfold normalize. apply ToLower_idemp.
  - unfold normalize. by rewrite is_fqdn_ToLower, is_fqdn_fqdn.
Qed.

Lemma normalize_case n m : ToLower n = ToLower m -> normalize n = normalize m.
Proof. intros E. by rewrite !normalize_alt, E. Qed.

Lemma normalize_trailing_dot n :
  is_fqdn n = false -> normalize (n +:+ ".") = normalize n.
Proof.
  intros E. unfold normalize.
  rewrite (fqdn_fixed (n +:+ ".")) by apply is_fqdn_snoc_dot.
  unfold fqdn. by rewrite E.
Qed.

(** C7: normalization (as the specification describes it) is idempotent,
    gives the same result for names that differ only in letter case and for
    a name with and without the trailing separator; hence, when the plugin
    is built on it, a raw record's name is found in its published record set
    by every query name that normalizes like it. *)
Theorem C7_normalize_canonical (L : Lib) W (v : Views.t) r rr queryName :
  (forall s, Normalize s = normalize s) ->
  last_keyed RawRecord.Name (fst (fetchRecords W v)) r ->
  In rr (RawRecord.Records r) ->
  normalize queryName = normalize (RawRecordEntry.Name rr) ->
  (forall n, normalize (normalize n) = normalize n)
  /\ (forall n m, ToLower n = ToLower m -> normalize n = normalize m)
  /\ (forall n, normalize (ToUpper n) = normalize n /\ normalize (ToLower n) = normalize n)
  /\ (forall n, is_fqdn n = false -> normalize (n +:+ ".") = normalize n)
  /\ exists zs e,
       Views.ClientZones (view (run W v)) !! RawRecord.Name r = Some zs
       /\ Zones.Z zs !! Normalize queryName = Some e
       /\ Zones.Z zs !! Normalize (RawRecordEntry.Name rr) = Some e
       /\ Zone.Name e = normalize (RawRecordEntry.Name rr).
Proof.
  intros HN Hr Hrr Hq.
  split; [apply normalize_idemp|].
  split; [apply normalize_case|].
  split.
  { intros n. split; apply normalize_case;
      [by rewrite ToLower_ToUpper | by rewrite ToLower_idemp]. }
  split; [apply normalize_trailing_dot|].
  destruct (stored_entry W v r rr Hr Hrr) as (zs & e & Hzs & He & Hname).
  exists zs, e. split; [done|].
  unfold norm_name in He, Hname. rewrite HN in He, Hname.
  rewrite !HN, Hq. done.
Qed.

Lemma C7_normalize_canonical_witness :
  normalize (normalize "WWW.EXAMPLE.COM.") = normalize "WWW.EXAMPLE.COM."
  /\ normalize "WWW.EXAMPLE.COM." = normalize "www.example.com"
  /\ exists zs e,
       Views.ClientZones
         (view (run (Scenario.serve Scenario.clients Scenario.www_records)
                    Scenario.configured)) !! "internal" = Some zs
       /\ Zones.Z zs !! normalize "WWW.EXAMPLE.COM." = Some e
       /\ Zone.Name e = "www.example.com.".
Proof.
  destruct (C7_normalize_canonical ipv4_lib
              (Scenario.serve Scenario.clients Scenario.www_records)
              Scenario.configured
              (RawRecord.mk "internal"
                 [RawRecordEntry.mk "www.example.com" 300 "A" "10.1.2.3"])
              (RawRecordEntry.mk "www.example.com" 300 "A" "10.1.2.3")
              "WWW.EXAMPLE.COM.")
    as (Idem & _ & _ & _ & zs & e & Hzs & Hq & _ & Hname).
  - reflexivity.
  - exists [], []. split; [reflexivity | constructor].
  - left. reflexivity.
  - reflexivity.
  - split; [apply Idem|]. split; [reflexivity|].
    exists zs, e. split; [exact Hzs|]. split; [exact Hq | exact Hname].
Defined.

(** ** C8: record types *)

Section RecordTypes.
Context `{Lib}.

Lemma rrtype_of_cases type :
  (rrtype_of type = TypeA <-> ToUpper type = "A")
  /\ (rrtype_of type = TypeAAAA <-> ToUpper type = "AAAA")
  /\ (rrtype_of type = TypeCNAME <-> ToUpper type = "CNAME")
  /\ (rrtype_of type = TypeTXT <-> ToUpper type = "TXT")
  /\ (rrtype_of type = TypeNone <-> ~ In (ToUpper type) ["A"; "AAAA"; "CNAME"; "TXT"]).
Proof.
  unfold rrtype_of. cbv zeta.
  destruct (String.eqb_spec (ToUpper type) "A") as [-> | NA].
  { cbn. repeat split; try done; intros; try tauto. }
  destruct (String.eqb_spec (ToUpper type) "AAAA") as [-> | NAAAA].
  { cbn. repeat split; try done; intros; try tauto. }
  destruct (String.eqb_spec (ToUpper type) "CNAME") as [-> | NCNAME].
  { cbn. repeat split; try done; intros; try tauto. }
  destruct (String.eqb_spec (ToUpper type) "TXT") as [-> | NTXT].
  { cbn. repeat split; try done; intros; try tauto. }
  repeat split; try done.
  intros _ [E | [E | [E | [E | []]]]]; congruence.
Qed.

Lemma rrtype_of_case_insensitive type :
  rrtype_of (ToUpper type) = rrtype_of type
  /\ rrtype_of (ToLower type) = rrtype_of type.
Proof. unfold rrtype_of. by rewrite ToUpper_idemp, ToUpper_ToLower. Qed.

(** C8: the type string is compared in upper case with A, AAAA, CNAME and
    TXT, so in any letter case, and gives the matching record type; any
    other string gives type 0 (no type).  The entry of a raw record with
    such a string is stored all the same (under its normalized name, when no
    later record of the set has that name), with type 0, and a query that
    reaches it is declined whatever type it asks for. *)
Theorem C8_unknown_type_stored_unusable W (v : Views.t) r rr :
  last_keyed RawRecord.Name (fst (fetchRecords W v)) r ->
  last_keyed norm_name (RawRecord.Records r) rr ->
  ~ In (ToUpper (RawRecordEntry.Type_ rr)) ["A"; "AAAA"; "CNAME"; "TXT"] ->
  (forall type,
      (rrtype_of type = TypeA <-> ToUpper type = "A")
      /\ (rrtype_of type = TypeAAAA <-> ToUpper type = "AAAA")
      /\ (rrtype_of type = TypeCNAME <-> ToUpper type = "CNAME")
      /\ (rrtype_of type = TypeTXT <-> ToUpper type = "TXT")
      /\ (rrtype_of type = TypeNone <-> ~ In (ToUpper type) ["A"; "AAAA"; "CNAME"; "TXT"])
      /\ rrtype_of (ToUpper type) = rrtype_of type
      /\ rrtype_of (ToLower type) = rrtype_of type)
  /\ (exists zs e,
        Views.ClientZones (view (run W v)) !! RawRecord.Name r = Some zs
        /\ Zones.Z zs !! norm_name rr = Some e
        /\ Zone.Type_ e = TypeNone
        /\ In (norm_name rr) (Zones.Names zs))
  /\ (forall x queryName queryType,
        match_ (Views.ClientACLs (view (run W v))) x = Some (RawRecord.Name r) ->
        Normalize queryName = norm_name rr ->
        resolve (view (run W v)) x queryName queryType = Decline).
Proof.
  intros Hr Hrr Hunknown.
  assert (Hzs : Views.ClientZones (view (run W v)) !! RawRecord.Name r = Some (zones_of r)).
  { rewrite loaded_ClientZones. by apply fill_lookup_last. }
  assert (He : Zones.Z (zones_of r) !! norm_name rr = Some (zone_of rr)).
  { rewrite zones_of_Z. by apply fill_lookup_last. }
  assert (Ht : Zone.Type_ (zone_of rr) = TypeNone).
  { cbn. by apply rrtype_of_cases. }
  split; [|split].
  - intros type.
    destruct (rrtype_of_cases type) as (A & AAAA & CNAME & TXT & None_).
    destruct (rrtype_of_case_insensitive type) as (Up & Low).
    done.
  - exists (zones_of r), (zone_of rr). repeat split; try done.
    rewrite zones_of_Names. apply in_map. by eapply last_keyed_in.
  - intros x queryName queryType Hm Hq.
    unfold resolve. rewrite Hm, Hzs, Hq, He, Ht. cbn.
    by rewrite orb_true_r.
Qed.
End RecordTypes.

Lemma C8_unknown_type_stored_unusable_witness :
  rrtype_of "cname" = TypeCNAME
  /\ rrtype_of "MX" = TypeNone
  /\ (exists zs e,
        Views.ClientZones Scenario.serving_dups !! "internal" = Some zs
        /\ Zones.Z zs !! "mail.example.com." = Some e
        /\ Zone.Type_ e = TypeNone)
  /\ resolve Scenario.serving_dups (IPv4.ip 10 5 5 5) "mail.example.com" TypeNone = Decline.
Proof.
  destruct (C8_unknown_type_stored_unusable
              (Scenario.serve Scenario.clients Scenario.dup_records)
              Scenario.configured
              (RawRecord.mk "internal"
                 [ RawRecordEntry.mk "host.example.com" 300 "A" "10.1.2.3";
                   RawRecordEntry.mk "note.example.com" 60 "txt" "Hello World";
                   RawRecordEntry.mk "mail.example.com" 60 "MX" "mx.example.com";
                   RawRecordEntry.mk "Host.Example.Com." 600 "aaaa" "FD00::1" ])
              (RawRecordEntry.mk "mail.example.com" 60 "MX" "mx.example.com"))
    as (Types & (zs & e & Hzs & He & Ht & _) & Declined).
  - exists [], []. split; [reflexivity | constructor].
  - exists [ RawRecordEntry.mk "host.example.com" 300 "A" "10.1.2.3";
             RawRecordEntry.mk "note.example.com" 60 "txt" "Hello World" ],
           [ RawRecordEntry.mk "Host.Example.Com." 600 "aaaa" "FD00::1" ].
    split; [reflexivity|]. repeat constructor. discriminate.
  - intros [E | [E | [E | [E | []]]]]; discriminate.
  - split; [apply (Types "cname"); reflexivity|].
    split; [apply (Types "MX"); intros [E | [E | [E | [E | []]]]]; discriminate|].
    split; [exists zs, e; by repeat split|].
    apply Declined; reflexivity.
Defined.

(** * Further properties of setup.go *)

(** ** schemaCheck (lines 290-297) *)

Lemma append_nil_l s : "" +:+ s = s.
Proof. reflexivity. Qed.

Lemma HasPrefix_iff s p : HasPrefix s p = true <-> exists t, s = p +:+ t.
Proof.
  unfold HasPrefix. revert s. induction p as [|a p IH]; intros s.
  - destruct s; (split; [intros _; eexists; apply eq_sym, append_nil_l | done]).
  - destruct s as [|b s]; cbn [String.prefix].
    + split; [done | by intros [t Ht]].
    + destruct (ascii_dec a b) as [-> | Hne].
      * rewrite IH. split; intros [t Ht]; exists t.
        -- by rewrite append_cons, <- Ht.
        -- rewrite append_cons in Ht. by injection Ht.
      * split; [done|]. intros [t Ht]. rewrite append_cons in Ht.
        injection Ht as Hab _. congruence.
Qed.

Lemma substring_skip t u m :
  String.substring (String.length t) m (t +:+ u) = String.substring 0 m u.
Proof. induction t as [|c t IH]; [done|]. by rewrite append_cons. Qed.

Lemma substring_whole p : String.substring 0 (String.length p) p = p.
Proof. induction p as [|c p IH]; [done|]. cbn. by rewrite IH. Qed.

Lemma substring_split s n :
  (n <= String.length s)%nat ->
  s = String.substring 0 n s +:+ String.substring n (String.length s - n) s.
Proof.
  revert n. induction s as [|c s IH]; intros n Hn.
  - cbn in Hn. by replace n with 0%nat by lia.
  - destruct n as [|n].
    + cbn [String.substring]. rewrite append_nil_l.
      change (String.length (String c s) - 0)%nat with (S (String.length s)).
      cbn [String.substring]. by rewrite substring_whole.
    + cbn [String.substring String.length]. rewrite append_cons.
      cbn in Hn. rewrite <- IH by lia. done.
Qed.

Lemma length_append s t :
  String.length (s +:+ t) = (String.length s + String.length t)%nat.
Proof. induction s as [|c s IH]; [done|]. rewrite append_cons. cbn. by rewrite IH. Qed.

Lemma HasSuffix_iff s p : HasSuffix s p = true <-> exists t, s = t +:+ p.
Proof.
  unfold HasSuffix. rewrite andb_true_iff, Nat.leb_le, String.eqb_eq. split.
  - intros [Hlen Hsub].
    exists (String.substring 0 (String.length s - String.length p) s).
    rewrite (substring_split s (String.length s - String.length p)) at 1 by lia.
    replace (String.length s - (String.length s - String.length p))%nat
      with (String.length p) by lia.
    by rewrite Hsub.
  - intros [t ->]. rewrite length_append. split; [lia|].
    replace (String.length t + String.length p - String.length p)%nat
      with (String.length t) by lia.
    by rewrite substring_skip, substring_whole.
Qed.

Section SchemaCheck.
Context `{Lib}.

(** X1: [schemaCheck] classifies a locator by its form: one that starts with
    http:// or https:// is an HTTP source, also when it ends in .yaml or
    .yml; any other one that ends in .yaml or .yml is a YAML file; anything
    else is refused with an error that names the locator. *)
Theorem X1_schemaCheck_classifies (str : string) :
  ((exists t, str = "http://" +:+ t) \/ (exists t, str = "https://" +:+ t) ->
   schemaCheck str = Ok SchemaHTTP)
  /\ (~ (exists t, str = "http://" +:+ t) -> ~ (exists t, str = "https://" +:+ t) ->
      (exists t, str = t +:+ ".yaml") \/ (exists t, str = t +:+ ".yml") ->
      schemaCheck str = Ok SchemaYAML)
  /\ (~ (exists t, str = "http://" +:+ t) -> ~ (exists t, str = "https://" +:+ t) ->
      ~ (exists t, str = t +:+ ".yaml") -> ~ (exists t, str = t +:+ ".yml") ->
      schemaCheck str = Err ("unknown schema: " +:+ str)).
Proof.
  unfold schemaCheck. rewrite <- !HasPrefix_iff, <- !HasSuffix_iff.
  destruct (HasPrefix str "http://"), (HasPrefix str "https://"),
    (HasSuffix str ".yaml"), (HasSuffix str ".yml"); cbn;
    (split; [|split]); try reflexivity; intuition congruence.
Qed.

Lemma schemaCheck_Ok_nonempty str s : schemaCheck str = Ok s -> str <> "".
Proof. intros E ->. by vm_compute in E. Qed.

Lemma schemaCheck_Ok_schema str s :
  schemaCheck str = Ok s -> s = SchemaHTTP \/ s = SchemaYAML.
Proof.
  unfold schemaCheck.
  destruct (HasPrefix str "http://" || HasPrefix str "https://"); [naive_solver|].
  destruct (HasSuffix str ".yaml" || HasSuffix str ".yml"); naive_solver.
Qed.
End SchemaCheck.

Lemma X1_schemaCheck_classifies_witness :
  @schemaCheck ipv4_lib "http://config.example/clients.yaml" = Ok "http"
  /\ @schemaCheck ipv4_lib "/etc/coredns/clients.yml" = Ok "yaml"
  /\ @schemaCheck ipv4_lib "HTTP://config.example/clients"
     = Err "unknown schema: HTTP://config.example/clients".
Proof.
  destruct (@X1_schemaCheck_classifies ipv4_lib "http://config.example/clients.yaml")
    as (Http & _ & _).
  destruct (@X1_schemaCheck_classifies ipv4_lib "/etc/coredns/clients.yml")
    as (_ & Yaml & _).
  destruct (@X1_schemaCheck_classifies ipv4_lib "HTTP://config.example/clients")
    as (_ & _ & Unknown).
  split; [|split].
  - apply Http. left. by exists "config.example/clients.yaml".
  - apply Yaml.
    + intros [t Ht]. discriminate.
    + intros [t Ht]. discriminate.
    + right. by exists "/etc/coredns/clients".
  - apply Unknown.
    + intros [t Ht]. discriminate.
    + intros [t Ht]. discriminate.
    + intros Hs. apply HasSuffix_iff in Hs. discriminate.
    + intros Hs. apply HasSuffix_iff in Hs. discriminate.
Defined.

(** ** parse (lines 77-134) *)

Section ParseFacts.
Context `{Lib}.
Variable ParseDuration : string -> result Z.

Lemma parse_block_app a b vars :
  parse_block ParseDuration (a ++ b) vars
  = match parse_block ParseDuration a vars with
    | Continue vars' => parse_block ParseDuration b vars'
    | stop => stop
    end.
Proof.
  revert vars. induction a as [|e a IH]; intros vars; [done|].
  cbn [app parse_block]. by destruct (parse_entry ParseDuration vars e).
Qed.

Lemma parse_blocks_concat blocks vars :
  parse_blocks ParseDuration blocks vars
  = parse_block ParseDuration (concat blocks) vars.
Proof.
  revert vars. induction blocks as [|b blocks IH]; intros vars; [done|].
  cbn [parse_blocks concat]. rewrite parse_block_app.
  by destruct (parse_block ParseDuration b vars).
Qed.

Lemma parse_block_snoc b e vars vars' :
  parse_block ParseDuration (b ++ [e]) vars = Continue vars' ->
  exists v1, parse_block ParseDuration b vars = Continue v1
             /\ parse_entry ParseDuration v1 e = Continue vars'.
Proof.
  rewrite parse_block_app.
  destruct (parse_block ParseDuration b vars) as [v1| |]; [|done|done].
  cbn [parse_block]. intros E. exists v1. split; [done|].
  by destruct (parse_entry ParseDuration v1 e).
Qed.

Lemma args_of_snoc name b e :
  args_of name (b ++ [e])
  = args_of name b
    ++ (if String.eqb (Entry.Val e) name
        then match Entry.RemainingArgs e with a :: _ => [a] | [] => [] end
        else []).
Proof.
  unfold args_of. rewrite omap_app. f_equal. cbn.
  destruct (String.eqb (Entry.Val e) name); [|done].
  by destruct (Entry.RemainingArgs e).
Qed.

(** What the variables hold after a block that was read to its end. *)
Definition fields_after (b : list Entry.t) (vars vars' : ParseVars.t) : Prop :=
  match last (args_of "client" b) with
  | None => ParseVars.client vars' = ParseVars.client vars
            /\ ParseVars.clientSchema vars' = ParseVars.clientSchema vars
  | Some a => ParseVars.client vars' = a
              /\ schemaCheck a = Ok (ParseVars.clientSchema vars')
  end
  /\ match last (args_of "record" b) with
     | None => ParseVars.record vars' = ParseVars.record vars
               /\ ParseVars.recordSchema vars' = ParseVars.recordSchema vars
     | Some a => ParseVars.record vars' = a
                 /\ schemaCheck a = Ok (ParseVars.recordSchema vars')
     end
  /\ match last (args_of "reload" b) with
     | None => ParseVars.ReloadInterval vars' = ParseVars.ReloadInterval vars
     | Some a => ParseDuration a = Ok (ParseVars.ReloadInterval vars')
     end
  /\ (ParseVars.err vars = None -> ParseVars.err vars' = None).

Lemma last_app_nil {A} (l : list A) : last (l ++ []) = last l.
Proof. by rewrite app_nil_r. Qed.

Lemma parse_block_fields b vars vars' :
  parse_block ParseDuration b vars = Continue vars' -> fields_after b vars vars'.
Proof.
  revert vars'. induction b as [|e b IH] using rev_ind; intros vars' Hb.
  - cbn in Hb. injection Hb as <-. by repeat split.
  - apply parse_block_snoc in Hb as (v1 & Hb & He).
    specialize (IH _ Hb). destruct IH as (IC & IR & IT & IE).
    unfold fields_after. rewrite !args_of_snoc. revert He. unfold parse_entry.
    destruct (String.eqb_spec (Entry.Val e) "client") as [Ec | NC].
    { rewrite ?Ec. destruct (Entry.RemainingArgs e) as [|a more]; [done|].
      destruct (schemaCheck a) as [s|] eqn:Es; [|done]. intros [= <-].
      cbn [String.eqb Ascii.eqb Bool.eqb ParseVars.client ParseVars.clientSchema
           ParseVars.record ParseVars.recordSchema ParseVars.err
           ParseVars.ReloadInterval].
      rewrite last_snoc, !last_app_nil. done. }
    destruct (String.eqb_spec (Entry.Val e) "record") as [Er | NR].
    { rewrite ?Er. destruct (Entry.RemainingArgs e) as [|a more]; [done|].
      destruct (schemaCheck a) as [s|] eqn:Es; [|done]. intros [= <-].
      cbn [String.eqb Ascii.eqb Bool.eqb ParseVars.client ParseVars.clientSchema
           ParseVars.record ParseVars.recordSchema ParseVars.err
           ParseVars.ReloadInterval].
      rewrite last_snoc, !last_app_nil. done. }
    destruct (String.eqb_spec (Entry.Val e) "reload") as [Et | NT]; [|done].
    destruct (Entry.RemainingArgs e) as [|a more]; [done|].
    destruct (ParseDuration a) as [d|] eqn:Ed; [|done]. intros [= <-].
    cbn [String.eqb Ascii.eqb Bool.eqb ParseVars.client ParseVars.clientSchema
         ParseVars.record ParseVars.recordSchema ParseVars.err
         ParseVars.ReloadInterval].
    rewrite last_snoc, !last_app_nil. done.
Qed.

Lemma parse_entry_ok vars e :
  entry_ok ParseDuration e -> exists vars', parse_entry ParseDuration vars e = Continue vars'.
Proof.
  intros (arg & more & Hargs & [[Hv [s Hs]] | [[Hv [s Hs]] | [Hv [d Hd]]]]);
    unfold parse_entry; rewrite Hv, Hargs; cbn [String.eqb Ascii.eqb Bool.eqb];
    rewrite ?Hs, ?Hd; eauto.
Qed.

Lemma parse_block_ok b vars :
  Forall (entry_ok ParseDuration) b ->
  exists vars', parse_block ParseDuration b vars = Continue vars'.
Proof.
  intros Hb. revert vars. induction Hb as [|e b He _ IH]; intros vars; [by eexists|].
  cbn [parse_block]. destruct (parse_entry_ok vars e He) as [v1 ->]. apply IH.
Qed.
End ParseFacts.

Section ParseResults.
Context `{Lib}.
Variable ParseDuration : string -> result Z.

Lemma parse_entry_Return vars e r :
  parse_entry ParseDuration vars e = Return_ r -> exists err, r = Err err.
Proof.
  unfold parse_entry.
  destruct (String.eqb _ _).
  { destruct (Entry.RemainingArgs e) as [|a more]; [done|].
    destruct (schemaCheck a); [done | intros [= <-]; by eexists]. }
  destruct (String.eqb _ _).
  { destruct (Entry.RemainingArgs e) as [|a more]; [done|].
    destruct (schemaCheck a); [done | intros [= <-]; by eexists]. }
  destruct (String.eqb _ _).
  { destruct (Entry.RemainingArgs e) as [|a more]; [done|].
    destruct (ParseDuration a); [done | intros [= <-]; by eexists]. }
  intros [= <-]. by eexists.
Qed.

Lemma parse_block_Return b vars r :
  parse_block ParseDuration b vars = Return_ r -> exists err, r = Err err.
Proof.
  revert vars. induction b as [|e b IH]; intros vars; [done|].
  cbn [parse_block]. destruct (parse_entry ParseDuration vars e) eqn:E.
  - apply IH.
  - intros [= <-]. by eapply parse_entry_Return.
  - done.
Qed.

Lemma parse_Ok_inv blocks v :
  parse ParseDuration blocks = Returned (Ok v) ->
  exists vars,
    parse_block ParseDuration (concat blocks)
      (ParseVars.mk "" "" "" "" None defaultReloadInterval) = Continue vars
    /\ ParseVars.client vars <> "" /\ ParseVars.record vars <> ""
    /\ v = Views.mk _ (ParseVars.ReloadInterval vars)
             (ParseVars.client vars) (ParseVars.record vars)
             (ParseVars.clientSchema vars) (ParseVars.recordSchema vars) [] ∅.
Proof.
  unfold parse. rewrite parse_blocks_concat.
  destruct (parse_block ParseDuration (concat blocks) _) as [vars|r|] eqn:Hb;
    [| apply parse_block_Return in Hb as [err ->]; done | done].
  destruct (ParseVars.err vars); [done|].
  destruct (String.eqb_spec (ParseVars.client vars) ""); [done|].
  destruct (String.eqb_spec (ParseVars.record vars) ""); [done|].
  intros [= <-]. by exists vars.
Qed.

(** X2: when [parse] succeeds, both locators are set and non-empty, each
    schema is the one [schemaCheck] gives for its locator, so one of the two
    schema constants, and nothing is published yet. *)
Theorem X2_parse_success blocks (v : Views.t) :
  parse ParseDuration blocks = Returned (Ok v) ->
  Views.Client v <> "" /\ Views.Record_ v <> ""
  /\ schemaCheck (Views.Client v) = Ok (Views.ClientSchema v)
  /\ schemaCheck (Views.Record_ v) = Ok (Views.RecordSchema v)
  /\ (Views.ClientSchema v = SchemaHTTP \/ Views.ClientSchema v = SchemaYAML)
  /\ (Views.RecordSchema v = SchemaHTTP \/ Views.RecordSchema v = SchemaYAML)
  /\ Views.ClientACLs v = [] /\ Views.ClientZones v = ∅.
Proof.
  intros Hp. apply parse_Ok_inv in Hp as (vars & Hb & Hc & Hr & ->).
  apply parse_block_fields in Hb as (FC & FR & _ & _).
  cbn [Views.Client Views.Record_ Views.ClientSchema Views.RecordSchema
       Views.ClientACLs Views.ClientZones].
  cbn [ParseVars.client ParseVars.clientSchema ParseVars.record
       ParseVars.recordSchema] in FC, FR.
  destruct (last (args_of "client" (concat blocks))) as [a|]; [|by destruct FC].
  destruct (last (args_of "record" (concat blocks))) as [b|]; [|by destruct FR].
  destruct FC as [<- SC], FR as [<- SR].
  repeat split; try done; by eapply schemaCheck_Ok_schema.
Qed.

(** X3: when [parse] succeeds, each setting comes from the last entry that
    names it, over all blocks: the client and record locators are the first
    arguments of the last client and record entries, and the reload interval
    is the duration of the last reload entry's first argument, or 30 seconds
    when there is no reload entry. *)
Theorem X3_parse_last_entry_wins blocks (v : Views.t) :
  parse ParseDuration blocks = Returned (Ok v) ->
  last (args_of "client" (concat blocks)) = Some (Views.Client v)
  /\ last (args_of "record" (concat blocks)) = Some (Views.Record_ v)
  /\ match last (args_of "reload" (concat blocks)) with
     | None => Views.ReloadInterval v = 30 * 1000000000
     | Some a => ParseDuration a = Ok (Views.ReloadInterval v)
     end.
Proof.
  intros Hp. apply parse_Ok_inv in Hp as (vars & Hb & Hc & Hr & ->).
  apply parse_block_fields in Hb as (FC & FR & FT & _).
  cbn [Views.Client Views.Record_ Views.ReloadInterval].
  cbn [ParseVars.client ParseVars.clientSchema ParseVars.record
       ParseVars.recordSchema ParseVars.ReloadInterval] in FC, FR, FT.
  destruct (last (args_of "client" (concat blocks))) as [a|]; [|by destruct FC].
  destruct (last (args_of "record" (concat blocks))) as [b|]; [|by destruct FR].
  destruct FC as [<- _], FR as [<- _]. done.
Qed.

(** X4: when every entry is one that [parse] accepts, [parse] returns: the
    error for the missing client if no entry names a client, the error for
    the missing record if a client is named and no record, and a
    configuration otherwise. *)
Theorem X4_parse_required_arguments blocks :
  Forall (entry_ok ParseDuration) (concat blocks) ->
  (args_of "client" (concat blocks) = [] ->
   parse ParseDuration blocks
   = Returned (Err "required argument is missing: 'client'"))
  /\ (args_of "client" (concat blocks) <> [] ->
      args_of "record" (concat blocks) = [] ->
      parse ParseDuration blocks
      = Returned (Err "required argument is missing: 'record'"))
  /\ (args_of "client" (concat blocks) <> [] ->
      args_of "record" (concat blocks) <> [] ->
      exists v, parse ParseDuration blocks = Returned (Ok v)).
Proof.
  intros Hok.
  destruct (parse_block_ok ParseDuration (concat blocks)
              (ParseVars.mk "" "" "" "" None defaultReloadInterval) Hok)
    as [vars Hb].
  unfold parse. rewrite parse_blocks_concat, Hb.
  apply parse_block_fields in Hb as (FC & FR & _ & FE).
  rewrite FE by done.
  cbn [ParseVars.client ParseVars.clientSchema ParseVars.record
       ParseVars.recordSchema] in FC, FR.
  assert (NC : args_of "client" (concat blocks) <> [] -> ParseVars.client vars <> "").
  { intros Hne. destruct (last (args_of "client" (concat blocks))) as [a|] eqn:El.
    - destruct FC as [-> SC]. by eapply schemaCheck_Ok_nonempty.
    - by apply last_None in El. }
  assert (NR : args_of "record" (concat blocks) <> [] -> ParseVars.record vars <> "").
  { intros Hne. destruct (last (args_of "record" (concat blocks))) as [a|] eqn:El.
    - destruct FR as [-> SR]. by eapply schemaCheck_Ok_nonempty.
    - by apply last_None in El. }
  split; [|split].
  - intros E. rewrite E in FC. destruct FC as [-> _]. done.
  - intros Hc E. rewrite E in FR. destruct FR as [-> _].
    apply NC, String.eqb_neq in Hc. by rewrite Hc.
  - intros Hc Hr. apply NC, String.eqb_neq in Hc. apply NR, String.eqb_neq in Hr.
    rewrite Hc, Hr. by eexists.
Qed.
End ParseResults.

Section ParseFailures.
Context `{Lib}.
Variable ParseDuration : string -> result Z.

Lemma parse_stops_at blocks good bad rest :
  concat blocks = good ++ bad :: rest ->
  Forall (entry_ok ParseDuration) good ->
  exists vars,
    forall stop,
      parse_entry ParseDuration vars bad = stop ->
      match stop with Continue _ => False | _ => True end ->
      parse ParseDuration blocks
      = match stop with
        | Return_ r => Returned r
        | _ => Panicked
        end.
Proof.
  intros Heq Hgood.
  destruct (parse_block_ok ParseDuration good
              (ParseVars.mk "" "" "" "" None defaultReloadInterval) Hgood)
    as [vars Hb].
  exists vars. intros stop Hstop Hnot.
  unfold parse. rewrite parse_blocks_concat, Heq, parse_block_app, Hb.
  cbn [parse_block]. rewrite Hstop. by destruct stop.
Qed.

(** X5: [parse] stops at the first entry it does not accept, whatever
    follows it: an entry that is not client, record or reload gives the error
    "unknown argument" with its name; a client or record entry whose first
    argument [schemaCheck] refuses gives that error; a reload entry whose
    first argument is not a duration gives the error of
    [time.ParseDuration]. *)
Theorem X5_parse_first_failure blocks good bad rest :
  concat blocks = good ++ bad :: rest ->
  Forall (entry_ok ParseDuration) good ->
  (Entry.Val bad <> "client" -> Entry.Val bad <> "record" ->
   Entry.Val bad <> "reload" ->
   parse ParseDuration blocks
   = Returned (Err ("unknown argument: " +:+ Entry.Val bad)))
  /\ (forall arg more err,
        Entry.Val bad = "client" \/ Entry.Val bad = "record" ->
        Entry.RemainingArgs bad = arg :: more ->
        schemaCheck arg = Err err ->
        parse ParseDuration blocks = Returned (Err err))
  /\ (forall arg more err,
        Entry.Val bad = "reload" ->
        Entry.RemainingArgs bad = arg :: more ->
        ParseDuration arg = Err err ->
        parse ParseDuration blocks = Returned (Err err)).
Proof.
  intros Heq Hgood.
  destruct (parse_stops_at blocks good bad rest Heq Hgood) as [vars Hstop].
  split; [|split].
  - intros NC NR NT.
    apply (Hstop (Return_ (Err ("unknown argument: " +:+ Entry.Val bad)))); [|done].
    unfold parse_entry.
    apply String.eqb_neq in NC, NR, NT. by rewrite NC, NR, NT.
  - intros arg more err Hv Hargs Hs.
    apply (Hstop (Return_ (Err err))); [|done].
    unfold parse_entry. destruct Hv as [-> | ->];
      cbn [String.eqb Ascii.eqb Bool.eqb]; by rewrite Hargs, Hs.
  - intros arg more err Hv Hargs Hd.
    apply (Hstop (Return_ (Err err))); [|done].
    unfold parse_entry. rewrite Hv.
    cbn [String.eqb Ascii.eqb Bool.eqb]. by rewrite Hargs, Hd.
Qed.

(** X6: a client, record or reload entry without an argument, reached
    after entries that [parse] accepts, makes [parse] panic: it takes
    element 0 of an empty argument list. *)
Theorem X6_parse_missing_argument_panics blocks good bad rest :
  concat blocks = good ++ bad :: rest ->
  Forall (entry_ok ParseDuration) good ->
  Entry.Val bad = "client" \/ Entry.Val bad = "record" \/ Entry.Val bad = "reload" ->
  Entry.RemainingArgs bad = [] ->
  parse ParseDuration blocks = Panicked.
Proof.
  intros Heq Hgood Hv Hargs.
  destruct (parse_stops_at blocks good bad rest Heq Hgood) as [vars Hstop].
  apply (Hstop Panic); [|done].
  unfold parse_entry. destruct Hv as [-> | [-> | ->]];
    cbn [String.eqb Ascii.eqb Bool.eqb]; by rewrite Hargs.
Qed.
End ParseFailures.

Lemma Corefile_lines_ok :
  Forall (@entry_ok ipv4_lib Corefile.duration)
         [Corefile.client_line; Corefile.record_line].
Proof.
  constructor; [|constructor; [|constructor]].
  - exists "clients.yaml", []. split; [done|]. left. split; [done|]. by eexists.
  - exists "http://config.example/records", []. split; [done|].
    right; left. split; [done|]. by eexists.
Defined.

Lemma X2_parse_success_witness :
  exists v,
    @parse ipv4_lib Corefile.duration Corefile.full = Returned (Ok v)
    /\ @schemaCheck ipv4_lib (Views.Client v) = Ok (Views.ClientSchema v)
    /\ Views.ClientSchema v = "http" /\ Views.RecordSchema v = "http"
    /\ Views.ClientACLs v = [].
Proof.
  eexists. split; [reflexivity|].
  destruct (@X2_parse_success ipv4_lib Corefile.duration Corefile.full _ eq_refl)
    as (_ & _ & SC & _ & _ & _ & Empty & _).
  split; [exact SC|]. split; [reflexivity|]. split; [reflexivity | exact Empty].
Defined.

Lemma X3_parse_last_entry_wins_witness :
  exists v,
    @parse ipv4_lib Corefile.duration Corefile.full = Returned (Ok v)
    /\ Views.Client v = "https://config.example/clients"
    /\ Views.Record_ v = "http://config.example/records"
    /\ Views.ReloadInterval v = 60000000000.
Proof.
  eexists. split; [reflexivity|].
  destruct (@X3_parse_last_entry_wins ipv4_lib Corefile.duration Corefile.full _ eq_refl)
    as (LC & LR & LT).
  split; [exact (eq_sym (f_equal (default "") LC))|].
  split; [exact (eq_sym (f_equal (default "") LR))|].
  exact (eq_sym (f_equal (fun r => match r with Ok d => d | Err _ => 0 end) LT)).
Defined.

Lemma X4_parse_required_arguments_witness :
  @parse ipv4_lib Corefile.duration [[Corefile.record_line]]
  = Returned (Err "required argument is missing: 'client'")
  /\ @parse ipv4_lib Corefile.duration [[Corefile.client_line]]
     = Returned (Err "required argument is missing: 'record'")
  /\ exists v, @parse ipv4_lib Corefile.duration
                 [[Corefile.client_line; Corefile.record_line]] = Returned (Ok v).
Proof.
  pose proof Corefile_lines_ok as Hok.
  assert (Hc : Forall (@entry_ok ipv4_lib Corefile.duration) [Corefile.client_line])
    by (constructor; [by inversion Hok | constructor]).
  assert (Hr : Forall (@entry_ok ipv4_lib Corefile.duration) [Corefile.record_line])
    by (inversion Hok as [|? ? _ Hrest]; exact Hrest).
  split; [|split].
  - apply (@X4_parse_required_arguments ipv4_lib Corefile.duration
             [[Corefile.record_line]] Hr). reflexivity.
  - apply (@X4_parse_required_arguments ipv4_lib Corefile.duration
             [[Corefile.client_line]] Hc); [discriminate | reflexivity].
  - apply (@X4_parse_required_arguments ipv4_lib Corefile.duration
             [[Corefile.client_line; Corefile.record_line]] Hok); discriminate.
Defined.

Lemma X5_parse_first_failure_witness :
  @parse ipv4_lib Corefile.duration
     [[Corefile.client_line; Entry.mk "timeout" ["5s"]; Corefile.record_line]]
  = Returned (Err "unknown argument: timeout")
  /\ @parse ipv4_lib Corefile.duration
       [[Corefile.client_line; Entry.mk "record" ["records.json"]]]
     = Returned (Err "unknown schema: records.json")
  /\ @parse ipv4_lib Corefile.duration
       [[Corefile.client_line; Entry.mk "reload" ["soon"]; Corefile.record_line]]
     = Returned (Err "time: invalid duration soon").
Proof.
  assert (Hc : Forall (@entry_ok ipv4_lib Corefile.duration) [Corefile.client_line])
    by (pose proof Corefile_lines_ok as Hok; constructor;
        [by inversion Hok | constructor]).
  destruct (@X5_parse_first_failure ipv4_lib Corefile.duration
              [[Corefile.client_line; Entry.mk "timeout" ["5s"]; Corefile.record_line]]
              [Corefile.client_line] (Entry.mk "timeout" ["5s"]) [Corefile.record_line]
              eq_refl Hc) as (Unknown & _ & _).
  destruct (@X5_parse_first_failure ipv4_lib Corefile.duration
              [[Corefile.client_line; Entry.mk "record" ["records.json"]]]
              [Corefile.client_line] (Entry.mk "record" ["records.json"]) []
              eq_refl Hc) as (_ & Schema & _).
  destruct (@X5_parse_first_failure ipv4_lib Corefile.duration
              [[Corefile.client_line; Entry.mk "reload" ["soon"]; Corefile.record_line]]
              [Corefile.client_line] (Entry.mk "reload" ["soon"]) [Corefile.record_line]
              eq_refl Hc) as (_ & _ & Duration).
  split; [|split].
  - apply Unknown; discriminate.
  - apply (Schema "records.json" []); [by right | reflexivity | reflexivity].
  - apply (Duration "soon" []); reflexivity.
Defined.

Lemma X6_parse_missing_argument_panics_witness :
  @parse ipv4_lib Corefile.duration
     [[Corefile.client_line; Entry.mk "record" []]] = Panicked.
Proof.
  assert (Hc : Forall (@entry_ok ipv4_lib Corefile.duration) [Corefile.client_line])
    by (pose proof Corefile_lines_ok as Hok; constructor;
        [by inversion Hok | constructor]).
  apply (@X6_parse_missing_argument_panics ipv4_lib Corefile.duration
           [[Corefile.client_line; Entry.mk "record" []]]
           [Corefile.client_line] (Entry.mk "record" []) [] eq_refl Hc);
    [right; by left | reflexivity].
Defined.

(** ** loadConfig run after loadConfig: reload (lines 136-152) *)

Section Refreshes.
Context `{Lib}.

Lemma run_store (upd : Views.t -> Views.t) (s : State) :
  store upd s
  = (tt, mkState _ (upd (view s)) (logged s) (stores s ++ [upd (view s)])).
Proof. reflexivity. Qed.

(** A run of [loadConfig] from any state of the log and of the stores. *)
Lemma loadConfig_from W (s : State) :
  loadConfig W s
  = (tt, mkState _ (loaded W (view s))
           (logged s ++ loaded_log W (view s))
           (stores s ++ loaded_stores W (view s))).
Proof.
  unfold loadConfig.
  rewrite !run_bind, !run_read. cbn [fst snd view].
  fold (fetchClients W (view s)).
  assert (ER : (if String.eqb (Views.RecordSchema (view s)) SchemaYAML
                then parseFromYAML W (Views.Record_ (view s)) OutRecords
                else if String.eqb (Views.RecordSchema (view s)) SchemaHTTP
                     then parseFromHTTP W (Views.Record_ (view s)) OutRecords
                     else ([], snd (fetchClients W (view s))))
               = fetchRecords W (view s))
    by reflexivity.
  unfold loaded, loaded_log, loaded_stores.
  destruct (fetchClients W (view s)) as [rawClients err].
  rewrite !run_ret. cbn [fst snd]. cbn [fst snd] in ER.
  rewrite run_bind, log_error_run. cbn [fst snd].
  rewrite !run_bind, !run_read. cbn [fst snd view]. rewrite ER.
  destruct (fetchRecords W (view s)) as [rawRecords err'].
  rewrite !run_ret. cbn [fst snd].
  rewrite run_bind, log_error_run. cbn [fst snd view logged stores].
  rewrite run_bind, run_store. cbn [fst snd view logged stores].
  rewrite run_bind, acl_loop_run. cbn [fst snd view logged stores].
  rewrite run_bind, run_store. cbn [fst snd view logged stores].
  rewrite zone_loop_run. cbn [fst snd view logged stores].
  destruct s as [[] l st]. cbn. rewrite <- !app_assoc. reflexivity.
Qed.

Lemma loaded_shape W (v : Views.t) :
  loaded W v
  = Views.set_ClientZones (Views.ClientZones (loaded W v))
      (Views.set_ClientACLs (Views.ClientACLs (loaded W v)) v).
Proof. by destruct v. Qed.

Lemma loaded_loaded W W' (v : Views.t) : loaded W' (loaded W v) = loaded W' v.
Proof. rewrite (loaded_shape W v). apply loaded_prior. Qed.

Lemma last_tick_seen picks W :
  last_tick picks (Some W)
  = Some (default W (last_tick picks None)).
Proof.
  revert W. induction picks as [|[|W'] picks IH]; intros W; [done|done|].
  cbn [last_tick]. by rewrite !IH.
Qed.

Lemma reload_loop_view picks (s : State) :
  view (snd (reload_loop picks s))
  = match last_tick picks None with
    | Some W => loaded W (view s)
    | None => view s
    end.
Proof.
  revert s. induction picks as [|[|W] picks IH]; intros s; [done|done|].
  cbn [reload_loop last_tick]. rewrite run_bind, loadConfig_from. cbn [fst snd].
  rewrite IH, last_tick_seen. cbn [view default].
  destruct (last_tick picks None) as [W'|]; cbn [default]; [apply loaded_loaded | done].
Qed.

Lemma reload_loop_returned picks (s : State) :
  fst (reload_loop picks s) = true <-> In PickReloadChan picks.
Proof.
  revert s. induction picks as [|[|W] picks IH]; intros s.
  - cbn. split; [done | tauto].
  - cbn. split; [by left | done].
  - cbn [reload_loop]. rewrite run_bind, IH. cbn. split; [by right|].
    by intros [? | ?].
Qed.

Lemma reload_loop_stops before after (s : State) :
  reload_loop (before ++ PickReloadChan :: after) s
  = reload_loop (before ++ [PickReloadChan]) s.
Proof.
  revert s. induction before as [|[|W] before IH]; intros s; [done|done|].
  cbn [app reload_loop]. by rewrite !run_bind, IH.
Qed.

Lemma reload_loop_logged picks (s : State) :
  exists more, logged (snd (reload_loop picks s)) = logged s ++ more.
Proof.
  revert s. induction picks as [|[|W] picks IH]; intros s;
    [exists []; cbn; by rewrite app_nil_r | exists []; cbn; by rewrite app_nil_r |].
  cbn [reload_loop]. rewrite run_bind, loadConfig_from. cbn [fst snd].
  destruct (IH (mkState _ (loaded W (view s))
                  (logged s ++ loaded_log W (view s))
                  (stores s ++ loaded_stores W (view s)))) as [more ->].
  cbn [logged]. rewrite <- app_assoc. by eexists.
Qed.

(** X7: with a positive interval, the reload goroutine does not panic;
    after serving its picks, the configuration is the one a single
    [loadConfig] builds in the world of the last tick served (the starting
    one if no tick was served), the log has only grown, the goroutine has
    returned exactly when it picked the reload channel, and what comes after
    that pick is not served. *)
Theorem X7_reload_serves_last_tick picks (s : State) :
  0 < Views.ReloadInterval (view s) ->
  exists returned s',
    reload picks s = Returned (returned, s')
    /\ view s' = match last_tick picks None with
                 | Some W => view (run W (view s))
                 | None => view s
                 end
    /\ (returned = true <-> In PickReloadChan picks)
    /\ (exists more, logged s' = logged s ++ more)
    /\ (forall before after,
          picks = before ++ PickReloadChan :: after ->
          reload picks s = reload (before ++ [PickReloadChan]) s).
Proof.
  intros Hpos. unfold reload.
  destruct (Z.leb_spec (Views.ReloadInterval (view s)) 0) as [Hle | _]; [lia|].
  exists (fst (reload_loop picks s)), (snd (reload_loop picks s)).
  split; [by destruct (reload_loop picks s)|].
  split.
  { rewrite reload_loop_view. destruct (last_tick picks None); [|done].
    by rewrite run_loaded. }
  split; [apply reload_loop_returned|].
  split; [apply reload_loop_logged|].
  intros before after ->. by rewrite reload_loop_stops.
Qed.

(** X8: [loadConfig] changes [ClientACLs] and [ClientZones] only: the
    interval, the two locators and the two schemas are the ones it started
    with.  Hence the configuration after two refreshes is the one the second
    builds alone, and a refresh from unchanged sources changes nothing. *)
Theorem X8_loadConfig_frame W W' (v : Views.t) :
  Views.ReloadInterval (view (run W v)) = Views.ReloadInterval v
  /\ Views.Client (view (run W v)) = Views.Client v
  /\ Views.Record_ (view (run W v)) = Views.Record_ v
  /\ Views.ClientSchema (view (run W v)) = Views.ClientSchema v
  /\ Views.RecordSchema (view (run W v)) = Views.RecordSchema v
  /\ view (run W' (view (run W v))) = view (run W' v)
  /\ view (run W (view (run W v))) = view (run W v).
Proof.
  rewrite !run_loaded. cbn [view]. rewrite !loaded_loaded.
  by destruct v.
Qed.
End Refreshes.

Lemma X7_reload_serves_last_tick_witness :
  exists s',
    reload [PickTick Scenario.down; PickTick Scenario.up; PickReloadChan;
            PickTick Scenario.down]
           (start Scenario.configured)
    = Returned (true, s')
    /\ view s' = Scenario.serving.
Proof.
  destruct (@X7_reload_serves_last_tick ipv4_lib
              [PickTick Scenario.down; PickTick Scenario.up; PickReloadChan;
               PickTick Scenario.down]
              (start Scenario.configured))
    as (returned & s' & Hrun & Hview & Hret & _ & _).
  { reflexivity. }
  exists s'. split; [|exact Hview].
  rewrite Hrun. f_equal. f_equal.
  apply Hret. right; right; left; reflexivity.
Defined.

(** ** What loadConfig logs and publishes (lines 154-237) *)

Section LogAndShape.
Context `{Lib}.

Lemma in_warnings_for name cidrs entry :
  In entry (warnings_for name cidrs)
  <-> exists cidr, In cidr cidrs /\ ParseCIDR cidr = None
                   /\ entry = LogWarningInvalidCIDR name cidr.
Proof.
  unfold warnings_for. rewrite in_flat_map. split.
  - intros (cidr & Hin & Hw). exists cidr. split; [done|].
    destruct (ParseCIDR cidr); [done|]. destruct Hw as [<- | []]. done.
  - intros (cidr & Hin & Hbad & ->). exists cidr. split; [done|].
    rewrite Hbad. by left.
Qed.

Lemma not_in_errors_of err name cidr :
  ~ In (LogWarningInvalidCIDR name cidr) (errors_of err).
Proof. destruct err; cbn; [intros [? | []]; done | intros []]. Qed.

(** X9: a run logs the warning for a group name and a prefix string exactly
    when a fetched group of that name lists that string and the string does
    not parse: no warning is logged for a well-formed prefix. *)
Theorem X9_warnings_exactly_malformed W (v : Views.t) name cidr :
  LogWarningInvalidCIDR name cidr ∈ logged (run W v)
  <-> exists client,
        In client (fst (fetchClients W v))
        /\ RawClientACL.Name client = name
        /\ In cidr (RawClientACL.CIDRPrefixes client)
        /\ ParseCIDR cidr = None.
Proof.
  rewrite run_loaded. cbn [logged]. unfold loaded_log.
  rewrite list_elem_of_In, !in_app_iff, in_flat_map. split.
  - intros [Hc | [Hr | (client & Hin & Hw)]];
      [by apply not_in_errors_of in Hc | by apply not_in_errors_of in Hr |].
    apply in_warnings_for in Hw as (cidr' & Hcidr & Hbad & [= -> ->]).
    by exists client.
  - intros (client & Hin & <- & Hcidr & Hbad). right. right.
    exists client. split; [done|]. apply in_warnings_for. by exists cidr.
Qed.

Lemma in_errors_of err e : In (LogError e) (errors_of err) <-> err = Some e.
Proof.
  destruct err as [e'|]; cbn; [|by split].
  split; [intros [[= ->] | []]; done | intros [= ->]; by left].
Qed.

Lemma errors_of_nil err : errors_of err = [] <-> err = None.
Proof. by destruct err. Qed.

Lemma warnings_for_nil name cidrs :
  warnings_for name cidrs = []
  <-> Forall (fun cidr => is_Some (ParseCIDR cidr)) cidrs.
Proof.
  induction cidrs as [|cidr cidrs IH]; [by split|].
  cbn. destruct (ParseCIDR cidr) as [p|] eqn:E; cbn.
  - rewrite IH. split; [intros; by constructor; [rewrite E|] | by inversion 1].
  - split; [done|]. inversion 1 as [|? ? [p Hp]]. congruence.
Qed.

Lemma all_warnings_nil rawClients :
  flat_map warnings_of rawClients = []
  <-> Forall (fun client =>
                Forall (fun cidr => is_Some (ParseCIDR cidr))
                       (RawClientACL.CIDRPrefixes client)) rawClients.
Proof.
  induction rawClients as [|client rest IH]; [by split|].
  cbn. split.
  - intros [E1 E2]%app_eq_nil. constructor; [by apply warnings_for_nil in E1 | by apply IH].
  - inversion 1 as [|? ? H1 H2].
    apply (warnings_for_nil (RawClientACL.Name client)) in H1. apply IH in H2.
    unfold warnings_of at 1. by rewrite H1, H2.
Qed.

(** X10: a run logs the error [e] exactly when one of the two fetches left
    [e] in [err], and it logs nothing at all exactly when neither fetch
    reports an error and every prefix string of every fetched group
    parses. *)
Theorem X10_log_errors_and_silence W (v : Views.t) :
  (forall e, LogError e ∈ logged (run W v)
             <-> snd (fetchClients W v) = Some e \/ snd (fetchRecords W v) = Some e)
  /\ (logged (run W v) = []
      <-> snd (fetchClients W v) = None /\ snd (fetchRecords W v) = None
          /\ Forall (fun client =>
                       Forall (fun cidr => is_Some (ParseCIDR cidr))
                              (RawClientACL.CIDRPrefixes client))
                    (fst (fetchClients W v))).
Proof.
  rewrite run_loaded. cbn [logged]. unfold loaded_log. split.
  - intros e. rewrite list_elem_of_In, !in_app_iff, !in_errors_of. split.
    + intros [? | [? | Hw]]; [by left | by right |].
      apply in_flat_map in Hw as (client & _ & Hw).
      by apply in_warnings_for in Hw as (? & _ & _ & ?).
    + intros [? | ?]; [by left | right; by left].
  - rewrite <- all_warnings_nil, <- !errors_of_nil. split.
    + intros [E1 [E2 E3]%app_eq_nil]%app_eq_nil. done.
    + intros (-> & -> & ->). done.
Qed.

(** X14: in every published record set the name sequence and the map
    agree: a name is in [Names] exactly when it is a key of [Z], and every
    entry is stored under its own [Name]. *)
Theorem X14_names_and_keys_agree W (v : Views.t) name zs :
  Views.ClientZones (view (run W v)) !! name = Some zs ->
  (forall k, In k (Zones.Names zs) <-> is_Some (Zones.Z zs !! k))
  /\ (forall k e, Zones.Z zs !! k = Some e -> Zone.Name e = k).
Proof.
  intros Hzs. apply loaded_record_set in Hzs as (r & _ & _ & ->). split.
  - intros k. rewrite zones_of_Names, zones_of_Z, fill_lookup_is_Some.
    by rewrite list_elem_of_In.
  - intros k e He. by apply zones_of_entry in He as (rr & _ & <- & ->).
Qed.

(** X15: the published map has a record set for a name exactly when some
    fetched raw record set has that name; raw record sets of the same name
    share one, so the map is no larger than the fetched list. *)
Theorem X15_record_sets_by_name W (v : Views.t) :
  (forall name,
      is_Some (Views.ClientZones (view (run W v)) !! name)
      <-> exists r, In r (fst (fetchRecords W v)) /\ RawRecord.Name r = name)
  /\ (size (Views.ClientZones (view (run W v))) <= length (fst (fetchRecords W v)))%nat.
Proof.
  rewrite loaded_ClientZones. split.
  - intros name. rewrite fill_lookup_is_Some, list_elem_of_In, in_map_iff.
    split; intros (r & ? & ?); by exists r.
  - apply fill_size_le.
Qed.

(** X16: the published groups are the fetched raw groups one for one, in
    order, under the same names (a repeated name or a group without any
    well-formed prefix is kept like any other); the prefixes of a group are
    the parsed well-formed strings of its raw group, in order. *)
Theorem X16_groups_one_for_one W (v : Views.t) :
  length (Views.ClientACLs (view (run W v))) = length (fst (fetchClients W v))
  /\ forall i client,
       fst (fetchClients W v) !! i = Some client ->
       exists g,
         Views.ClientACLs (view (run W v)) !! i = Some g
         /\ ClientACL.Name g = RawClientACL.Name client
         /\ ClientACL.CIDRNets g = omap ParseCIDR (RawClientACL.CIDRPrefixes client)
         /\ (length (ClientACL.CIDRNets g)
             <= length (RawClientACL.CIDRPrefixes client))%nat
         /\ (forall prefix,
               In prefix (ClientACL.CIDRNets g)
               <-> exists cidr, In cidr (RawClientACL.CIDRPrefixes client)
                                /\ ParseCIDR cidr = Some prefix).
Proof.
  rewrite loaded_ClientACLs. split; [apply length_map|].
  intros i client Hi. exists (acl_of client).
  split; [by rewrite list_lookup_fmap, Hi|].
  split; [done|]. split; [done|]. split.
  - cbn. generalize (RawClientACL.CIDRPrefixes client).
    intros l. induction l as [|c l IH]; [done|].
    cbn. destruct (ParseCIDR c); cbn; lia.
  - intros prefix. cbn. rewrite <- list_elem_of_In, list_elem_of_omap.
    split; intros (cidr & Hin & Hp); exists cidr; by rewrite ?list_elem_of_In in *.
Qed.
End LogAndShape.

Lemma X14_names_and_keys_agree_witness :
  exists zs,
    Views.ClientZones Scenario.serving_dups !! "internal" = Some zs
    /\ (In "mail.example.com." (Zones.Names zs)
        <-> is_Some (Zones.Z zs !! "mail.example.com.")).
Proof.
  eexists. split; [reflexivity|].
  apply (@X14_names_and_keys_agree ipv4_lib
           (Scenario.serve Scenario.clients Scenario.dup_records)
           Scenario.configured "internal" _ eq_refl).
Defined.

(** ** From parse to loadConfig, and the sources of a refresh *)

Section Sources.
Context `{Lib}.
Variable ParseDuration : string -> result Z.

Lemma parse_Ok_checked blocks (v : Views.t) :
  parse ParseDuration blocks = Returned (Ok v) ->
  schemaCheck (Views.Client v) = Ok (Views.ClientSchema v)
  /\ schemaCheck (Views.Record_ v) = Ok (Views.RecordSchema v).
Proof.
  intros Hp. apply parse_Ok_inv in Hp as (vars & Hb & Hc & Hr & ->).
  apply parse_block_fields in Hb as (FC & FR & _ & _).
  cbn [Views.Client Views.Record_ Views.ClientSchema Views.RecordSchema].
  cbn [ParseVars.client ParseVars.clientSchema ParseVars.record
       ParseVars.recordSchema] in FC, FR.
  destruct (last (args_of "client" (concat blocks))) as [a|]; [|by destruct FC].
  destruct (last (args_of "record" (concat blocks))) as [b|]; [|by destruct FR].
  by destruct FC as [<- SC], FR as [<- SR].
Qed.

Lemma switch_on_checked {T} (W : World) (out : Out T) locator schema other :
  SchemaYAML <> SchemaHTTP ->
  schemaCheck locator = Ok schema ->
  (if String.eqb schema SchemaYAML then parseFromYAML W locator out
   else if String.eqb schema SchemaHTTP then parseFromHTTP W locator out
   else other)
  = if HasPrefix locator "http://" || HasPrefix locator "https://"
    then parseFromHTTP W locator out
    else parseFromYAML W locator out.
Proof.
  intros Hne. unfold schemaCheck.
  destruct (HasPrefix locator "http://" || HasPrefix locator "https://").
  - intros [= <-]. apply not_eq_sym, String.eqb_neq in Hne.
    by rewrite Hne, String.eqb_refl.
  - destruct (HasSuffix locator ".yaml" || HasSuffix locator ".yml"); [|done].
    intros [= <-]. by rewrite String.eqb_refl.
Qed.

(** X11: on a configuration that [parse] returned, with two distinct schema
    constants, [loadConfig] fetches each document over HTTP when its locator
    starts with http:// or https:// and from a YAML file otherwise; it never
    skips a fetch. *)
Theorem X11_parse_selects_sources blocks (v : Views.t) W :
  parse ParseDuration blocks = Returned (Ok v) ->
  SchemaYAML <> SchemaHTTP ->
  fetchClients W v
  = (if HasPrefix (Views.Client v) "http://" || HasPrefix (Views.Client v) "https://"
     then parseFromHTTP W (Views.Client v) OutClients
     else parseFromYAML W (Views.Client v) OutClients)
  /\ fetchRecords W v
     = (if HasPrefix (Views.Record_ v) "http://" || HasPrefix (Views.Record_ v) "https://"
        then parseFromHTTP W (Views.Record_ v) OutRecords
        else parseFromYAML W (Views.Record_ v) OutRecords).
Proof.
  intros Hp Hne. apply parse_Ok_checked in Hp as [SC SR].
  unfold fetchClients, fetchRecords. split; by apply switch_on_checked.
Qed.

(** X17: [parse] does not check the sign of the reload interval: when the
    last reload entry's argument is a duration that is zero or negative,
    [parse] succeeds and the reload goroutine panics when it creates its
    ticker. *)
Theorem X17_nonpositive_interval_panics blocks (v : Views.t) arg d picks :
  parse ParseDuration blocks = Returned (Ok v) ->
  last (args_of "reload" (concat blocks)) = Some arg ->
  ParseDuration arg = Ok d ->
  d <= 0 ->
  Views.ReloadInterval v = d /\ reload picks (start v) = Panicked.
Proof.
  intros Hp Hlast Hd Hle. apply parse_Ok_inv in Hp as (vars & Hb & _ & _ & ->).
  apply parse_block_fields in Hb as (_ & _ & FT & _).
  rewrite Hlast, Hd in FT. injection FT as <-.
  split; [done|]. unfold reload, start. cbn [view Views.ReloadInterval].
  destruct (Z.leb_spec d 0) as [_ | Hgt]; [done | lia].
Qed.
End Sources.

Section UnreachableSources.
Context `{Lib}.

Lemma parseFromHTTP_fails {T} W endpoint (out : Out T) e :
  http_fails W endpoint e -> parseFromHTTP W endpoint out = ([], Some e).
Proof.
  unfold parseFromHTTP.
  intros [E1 | u E1 E2 | u req E1 E2 E3 | u req resp E1 E2 E3 E4];
    by rewrite ?E1, ?E2, ?E3, ?E4.
Qed.

Lemma run_fetched W (v : Views.t) rawClients e :
  fetchClients W v = (rawClients, Some e) ->
  Views.ClientACLs (view (run W v)) = map acl_of rawClients
  /\ LogError e ∈ logged (run W v).
Proof.
  intros E. split.
  - by rewrite loaded_ClientACLs, E.
  - apply errors_logged. left. by rewrite E.
Qed.

Lemma run_fetched_records W (v : Views.t) rawRecords e :
  fetchRecords W v = (rawRecords, Some e) ->
  Views.ClientZones (view (run W v)) = client_zones rawRecords
  /\ LogError e ∈ logged (run W v).
Proof.
  intros E. split.
  - by rewrite run_loaded; cbn; rewrite E.
  - apply errors_logged. right. by rewrite E.
Qed.

(** X12: with the YAML schema, a file that cannot be read leaves its part
    of the configuration empty and its error in the log; a file whose
    decoding fails part of the way has the elements decoded before the error
    published all the same, with the error logged. *)
Theorem X12_yaml_source_failures W (v : Views.t) :
  (Views.ClientSchema v = SchemaYAML ->
   (forall e, ioutil_ReadFile W (Views.Client v) = Err e ->
      Views.ClientACLs (view (run W v)) = [] /\ LogError e ∈ logged (run W v))
   /\ (forall file rawClients e,
         ioutil_ReadFile W (Views.Client v) = Ok file ->
         into_clients (yaml_Unmarshal W) file = (rawClients, Some e) ->
         Views.ClientACLs (view (run W v)) = map acl_of rawClients
         /\ LogError e ∈ logged (run W v)))
  /\ (Views.RecordSchema v = SchemaYAML ->
      (forall e, ioutil_ReadFile W (Views.Record_ v) = Err e ->
         Views.ClientZones (view (run W v)) = ∅ /\ LogError e ∈ logged (run W v))
      /\ (forall file rawRecords e,
            ioutil_ReadFile W (Views.Record_ v) = Ok file ->
            into_records (yaml_Unmarshal W) file = (rawRecords, Some e) ->
            Views.ClientZones (view (run W v)) = client_zones rawRecords
            /\ LogError e ∈ logged (run W v))).
Proof.
  split; intros Hs; split.
  - intros e Hread. apply (run_fetched W v []).
    unfold fetchClients, parseFromYAML. by rewrite Hs, String.eqb_refl, Hread.
  - intros file rawClients e Hread Hdec. apply run_fetched.
    unfold fetchClients, parseFromYAML. by rewrite Hs, String.eqb_refl, Hread.
  - intros e Hread. apply (run_fetched_records W v []).
    unfold fetchRecords, parseFromYAML. by rewrite Hs, String.eqb_refl, Hread.
  - intros file rawRecords e Hread Hdec. apply run_fetched_records.
    unfold fetchRecords, parseFromYAML. by rewrite Hs, String.eqb_refl, Hread.
Qed.

(** X13: with the HTTP schema (distinct from the YAML one), a failure of
    any stage before the decoding (parsing the URL, building the request,
    the round trip, reading the body) leaves that part of the configuration
    empty and the stage's error in the log. *)
Theorem X13_http_source_failures W (v : Views.t) :
  SchemaYAML <> SchemaHTTP ->
  (Views.ClientSchema v = SchemaHTTP ->
   forall e, http_fails W (Views.Client v) e ->
     Views.ClientACLs (view (run W v)) = [] /\ LogError e ∈ logged (run W v))
  /\ (Views.RecordSchema v = SchemaHTTP ->
      forall e, http_fails W (Views.Record_ v) e ->
        Views.ClientZones (view (run W v)) = ∅ /\ LogError e ∈ logged (run W v)).
Proof.
  intros Hne. apply not_eq_sym, String.eqb_neq in Hne. split; intros Hs e Hf.
  - apply (run_fetched W v []).
    unfold fetchClients. rewrite Hs, Hne, String.eqb_refl.
    by apply parseFromHTTP_fails.
  - apply (run_fetched_records W v []).
    unfold fetchRecords. rewrite Hs, Hne, String.eqb_refl.
    by apply parseFromHTTP_fails.
Qed.
End UnreachableSources.

Lemma X11_parse_selects_sources_witness :
  exists v,
    @parse ipv4_lib Corefile.duration Corefile.full = Returned (Ok v)
    /\ fetchClients Scenario.up v
       = parseFromHTTP Scenario.up "https://config.example/clients" OutClients
    /\ fetchRecords Scenario.up v
       = parseFromHTTP Scenario.up "http://config.example/records" OutRecords.
Proof.
  eexists. split; [reflexivity|].
  apply (@X11_parse_selects_sources ipv4_lib Corefile.duration Corefile.full _
           Scenario.up eq_refl).
  discriminate.
Defined.

Lemma X17_nonpositive_interval_panics_witness :
  exists v,
    @parse ipv4_lib Corefile.duration
       [[Corefile.client_line; Corefile.record_line; Entry.mk "reload" ["0s"]]]
    = Returned (Ok v)
    /\ Views.ReloadInterval v = 0
    /\ reload [PickTick Scenario.up] (start v) = Panicked.
Proof.
  eexists. split; [reflexivity|].
  apply (@X17_nonpositive_interval_panics ipv4_lib Corefile.duration
           [[Corefile.client_line; Corefile.record_line; Entry.mk "reload" ["0s"]]]
           _ "0s" 0 [PickTick Scenario.up] eq_refl eq_refl eq_refl).
  lia.
Defined.

Lemma X12_yaml_source_failures_witness :
  (Views.ClientACLs (view (run Scenario.down Scenario.serving)) = []
   /\ LogError "open: no such file or directory"
        ∈ logged (run Scenario.down Scenario.serving))
  /\ (length (Views.ClientACLs (view (run Outages.torn Scenario.serving))) = 1%nat
      /\ LogError "yaml: line 4: cannot unmarshal !!str into []string"
           ∈ logged (run Outages.torn Scenario.serving)).
Proof.
  destruct (@X12_yaml_source_failures ipv4_lib Scenario.down Scenario.serving)
    as [Down _].
  destruct (@X12_yaml_source_failures ipv4_lib Outages.torn Scenario.serving)
    as [Torn _].
  split.
  - apply (proj1 (Down eq_refl)). reflexivity.
  - destruct (proj2 (Torn eq_refl) Scenario.clients_file
                [RawClientACL.mk "internal" ["10.0.0.0/8"]]
                "yaml: line 4: cannot unmarshal !!str into []string"
                eq_refl eq_refl) as [Published Logged].
    split; [by rewrite Published | exact Logged].
Defined.

Lemma X13_http_source_failures_witness :
  Views.ClientACLs (view (run Scenario.up Outages.over_http)) = []
  /\ LogError "dial tcp: connection refused"
       ∈ logged (run Scenario.up Outages.over_http).
Proof.
  destruct (@X13_http_source_failures ipv4_lib Scenario.up Outages.over_http)
    as [Clients _]; [discriminate|].
  apply (Clients eq_refl).
  by apply (FailsDo _ _ _ "https://config.example/clients"
              "https://config.example/clients").
Defined.

Section FurtherArguments.
Context `{Lib}.
Variable ParseDuration : string -> result Z.

Lemma parse_entry_first_arg vars e :
  parse_entry ParseDuration vars (first_arg_only e) = parse_entry ParseDuration vars e.
Proof.
  unfold parse_entry, first_arg_only. cbn [Entry.Val Entry.RemainingArgs].
  by destruct (Entry.RemainingArgs e).
Qed.

Lemma parse_block_first_arg b vars :
  parse_block ParseDuration (map first_arg_only b) vars = parse_block ParseDuration b vars.
Proof.
  revert vars. induction b as [|e b IH]; intros vars; [done|].
  cbn [map parse_block]. rewrite parse_entry_first_arg.
  by destruct (parse_entry ParseDuration vars e).
Qed.

(** X18: [parse] reads the first argument of an entry only: further
    arguments on the line are ignored without an error, so the outcome is
    the one for the same blocks with every entry cut to its first
    argument. *)
Theorem X18_parse_ignores_further_arguments blocks :
  parse ParseDuration (map (map first_arg_only) blocks) = parse ParseDuration blocks.
Proof.
  unfold parse. f_equal.
  generalize (ParseVars.mk "" "" "" "" None defaultReloadInterval).
  induction blocks as [|b blocks IH]; intros vars; [done|].
  cbn [map parse_blocks]. rewrite parse_block_first_arg.
  by destruct (parse_block ParseDuration b vars).
Qed.
End FurtherArguments.
